(** * Letter counting, pools and bags: the seminar notebooks, embedded

    The notebooks of the TOBD seminars are linear sequences of cells.  The
    cells that compute something are embedded here as Rocq functions, one
    module per notebook, under the names the notebooks give them:

    - [Panov]      multiprocessing_intro_v4.ipynb (letter counting, tasks 1-6)
    - [Golyshkov]  lec_multiprocessing_intro_v3.ipynb (tagged random strings,
                   cubing through a pool, the cp1251 [count_letters])
    - [Unnamed]    the notebook with [count_chars_in_book] / [count_in_dir]
    - [Leventsov]  02_bag_v2.ipynb (groupby and foldby on a bag)

    [Py] holds the pieces of Python the cells are written in: strings as
    lists of code points, exceptions as a sum type, [collections.Counter],
    [functools.reduce], slicing, and the parts of [multiprocessing.Pool],
    [list.sort], [toolz.reduceby] and [dask.bag] that the cells call. *)

From stdpp Require Import base numbers option list gmap sorting lexico strings.

Local Open Scope Z_scope.

(** ** Python *)

Module Py.

(** A [str] is a sequence of code points; [ord] and [chr] are the identity. *)
Abbreviation char := N (only parsing).
Abbreviation str := (list N) (only parsing).

(** A dict or a Counter keyed by one-character strings. *)
Abbreviation table := (gmap N Z) (only parsing).

Inductive exn : Type :=
  | NameError (name : str)
  | TypeError
  | KeyError
  | UnboundLocalError.

(** [inl e]: the call raised [e]; [inr v]: it returned [v]. *)
Definition result (A : Type) : Type := (exn + A)%type.

Definition ret {A} (v : A) : result A := inr v.
Definition raise {A} (e : exn) : result A := inl e.
Definition bind {A B} (r : result A) (k : A → result B) : result B :=
  match r with
  | inl e => inl e
  | inr v => k v
  end.

(** Consuming an iterator whose elements may raise: the first exception
    ends the iteration. *)
Fixpoint consume {A} (it : list (result A)) : result (list A) :=
  match it with
  | [] => ret []
  | r :: it' => bind r (λ v, bind (consume it') (λ vs, ret (v :: vs)))
  end.

(** [range(a, b)] over code points. *)
Definition range (a b : N) : list N :=
  N.of_nat <$> seq (N.to_nat a) (N.to_nat b - N.to_nat a).

(** [s[lo:hi]] for [0 <= lo] and [0 <= hi]. *)
Definition slice {A} (s : list A) (lo hi : nat) : list A :=
  take (hi - lo) (drop lo s).

(** [self[elem] = self.get(elem, 0) + 1], the body of [Counter.update] on an
    iterable. *)
Definition tally (cnt : table) (elem : char) : table :=
  <[elem := default 0 (cnt !! elem) + 1]> cnt.

(** [Counter(iterable)]. *)
Definition Counter (it : list char) : table := foldl tally ∅ it.

(** One key of [Counter.__add__]: a missing key reads as 0 and only sums
    that are positive are kept. *)
Definition add_entry (x y : option Z) : option Z :=
  match x, y with
  | None, None => None
  | _, _ => let s := default 0 x + default 0 y in
            if bool_decide (0 < s) then Some s else None
  end.

(** [a + b] on Counters. *)
Definition add (a b : table) : table := merge add_entry a b.

(** [functools.reduce(f, l)] without an initial value. *)
Definition reduce {A} (f : A → A → A) (l : list A) : result A :=
  match l with
  | [] => raise TypeError
  | x :: l' => ret (foldl f x l')
  end.

(** *** multiprocessing.Pool

    Jobs are numbered in submission order.  Which worker finishes which job
    first is the operating system's choice: it enters the model as the list
    of job numbers in the order the results come back. *)

Module Pool.

(** [apply_async]: the result of job [j] is stored under [j] when a worker
    hands it back. *)
Definition job_done {A B} (f : A → B) (args : list A)
    (cache : gmap nat B) (j : nat) : gmap nat B :=
  match args !! j with
  | Some x => <[j := f x]> cache
  | None => cache
  end.

Definition run_jobs {A B} (f : A → B) (args : list A) (arrival : list nat)
    : gmap nat B :=
  foldl (job_done f args) ∅ arrival.

(** [[pool.apply_async(f, (x,)) for x in xs]] followed by [[h.get() for h in
    handles]]: each [get] waits for its own job; [None] when some job never
    comes back and its [get] blocks for ever. *)
Definition apply_async_get {A B} (f : A → B) (xs : list A)
    (arrival : list nat) : option (list B) :=
  mapM (λ j, run_jobs f xs arrival !! j) (seq 0 (length xs)).

(** [Pool.map]: the chunk size of [Pool._map_async]. *)
Definition chunksize (processes len : nat) : nat :=
  let q := (len / (processes * 4))%nat in
  if decide ((len `mod` (processes * 4))%nat = 0%nat) then q else S q.

(** [Pool._get_tasks]: the input cut into batches of [size] items. *)
Definition get_tasks {A} (size : nat) (xs : list A) : list (list A) :=
  match size with
  | O => []
  | S _ => (λ i, slice xs (i * size) ((i + 1) * size))
             <$> seq 0 ((length xs + size - 1) / size)%nat
  end.

(** [MapResult._set(i, batch)]: [self._value[i*size:(i+1)*size] = batch]. *)
Definition MapResult_set {B} (size : nat) (value : list (option B))
    (i : nat) (batch : list B) : list (option B) :=
  take (i * size) value ++ (Some <$> batch) ++ drop ((i + 1) * size) value.

Definition batch_done {A B} (f : A → B) (size : nat) (tasks : list (list A))
    (value : list (option B)) (i : nat) : list (option B) :=
  match tasks !! i with
  | Some batch => MapResult_set size value i (f <$> batch)
  | None => value
  end.

(** [pool.map(f, xs)] on a pool of [processes] workers whose batches come
    back in the order [arrival]; the call returns once every batch is in,
    and [None] stands for a call that blocks for ever on a missing one. *)
Definition map {A B} (processes : nat) (f : A → B) (xs : list A)
    (arrival : list nat) : option (list B) :=
  let size := chunksize processes (length xs) in
  let tasks := get_tasks size xs in
  let value := foldl (batch_done f size tasks)
                 (replicate (length xs) None) arrival in
  mapM id value.

End Pool.

(** *** list.sort on (int, str) tuples

    Tuples compare lexicographically, strings by code point. *)
Definition tuple_le (x y : nat * list N) : Prop := lexico x y ∨ x = y.

#[global] Instance tuple_le_dec (x y : nat * list N) : Decision (tuple_le x y).
Proof. unfold tuple_le. apply _. Defined.

Definition sort (l : list (nat * list N)) : list (nat * list N) :=
  merge_sort tuple_le l.

(** *** toolz and dask.bag *)

Section bag.
Context {A K V : Type} `{Countable K}.

(** [toolz.reduceby(key, binop, seq, init)]; [key] may raise. *)
Definition reduceby_step (key : A → result K) (binop : V → A → V) (init : V)
    (acc : result (gmap K V)) (item : A) : result (gmap K V) :=
  bind acc (λ d, bind (key item) (λ k,
    ret (<[k := binop (default init (d !! k)) item]> d))).

Definition reduceby (key : A → result K) (binop : V → A → V)
    (seq : list A) (init : V) : result (gmap K V) :=
  foldl (reduceby_step key binop init) (ret ∅) seq.

(** [toolz.groupby(key, seq)]. *)
Definition groupby_step (key : A → result K)
    (acc : result (gmap K (list A))) (item : A) : result (gmap K (list A)) :=
  bind acc (λ d, bind (key item) (λ k,
    ret (<[k := default [] (d !! k) ++ [item]]> d))).

Definition toolz_groupby (key : A → result K) (seq : list A)
    : result (gmap K (list A)) :=
  foldl (groupby_step key) (ret ∅) seq.
End bag.

(** [toolz.partition_all(n, seq)]. *)
Definition partition_all {A} (n : nat) (l : list A) : list (list A) :=
  match n with
  | O => []
  | S _ => (λ i, slice l (i * n) ((i + 1) * n))
             <$> seq 0 ((length l + n - 1) / n)%nat
  end.

Section foldby.
Context {A K V : Type} `{Countable K}.

(** [dictitems]: the items of a dict, in an order that is not modelled. *)
Definition dictitems (d : gmap K V) : list (K * V) := map_to_list d.

(** One aggregation node of [Bag.foldby]:
    [reduceby(0, combine2, concat(map(dictitems, group)), combine_initial)]
    with [combine2 = lambda acc, x: combine(acc, x[1])]. *)
Definition foldby_aggregate (combine : V → V → V) (combine_initial : V)
    (group : list (gmap K V)) : gmap K V :=
  foldl (λ d (x : K * V),
           <[x.1 := combine (default combine_initial (d !! x.1)) x.2]> d)
        ∅ (concat (dictitems <$> group)).

(** [split_every] when the call leaves it out. *)
Definition split_every : nat := 8.

(** The [while k > split_every] loop of [Bag.foldby]; it runs at most
    once per partition. *)
Fixpoint foldby_levels (fuel : nat) (combine : V → V → V)
    (combine_initial : V) (ds : list (gmap K V)) : list (gmap K V) :=
  match fuel with
  | O => ds
  | S fuel' =>
      if decide (split_every < length ds)%nat
      then foldby_levels fuel' combine combine_initial
             (foldby_aggregate combine combine_initial
                <$> partition_all split_every ds)
      else ds
  end.

(** [bag.foldby(key, binop, initial, combine, combine_initial).compute()]
    on a bag given by its partitions. *)
Definition foldby (key : A → result K) (binop : V → A → V) (initial : V)
    (combine : V → V → V) (combine_initial : V)
    (bag : list (list A)) : result (list (K * V)) :=
  bind (consume ((λ part, reduceby key binop part initial) <$> bag))
    (λ ds, ret (dictitems
       (foldby_aggregate combine combine_initial
          (foldby_levels (length ds) combine combine_initial ds)))).

(** [bag.groupby(key).compute()]: every key with the list of its items;
    the partition a key lands in, and so the order of the pairs, depends
    on the hash of the key and is not modelled. *)
Definition groupby (key : A → result K) (bag : list (list A))
    : result (list (K * list A)) :=
  bind (toolz_groupby key (concat bag)) (λ d, ret (map_to_list d)).
End foldby.

(** *** More of collections, re and random *)



(** [re.findall(pattern, text)] for a pattern that is one character
    class: the matching characters, in order. *)
Definition findall (class : N → bool) (text : str) : str :=
  filter (λ c, class c) text.

(** [random.choice(seq)] on a non-empty [seq], where [r] is the number the
    generator draws: the element at an index below [len(seq)]. *)
Definition random_choice (seq : str) (r : nat) : N :=
  default 0%N (seq !! (r `mod` length seq)%nat).

(** *** More of toolz and dask.bag *)

Module Bag.

(** The partition size [db.from_sequence(seq, npartitions=...)] settles
    on: [ceil(len / npartitions)] when [npartitions] is given, else 1 for
    fewer than 100 items and [len // 100] from there on. *)
Definition partition_size (len : nat) (npartitions : option positive) : nat :=
  match npartitions with
  | Some n => ((len + Pos.to_nat n - 1) / Pos.to_nat n)%nat
  | None => if decide (len < 100)%nat then 1%nat else (len / 100)%nat
  end.

(** [db.from_sequence]: the partitions of the bag; an empty sequence gives
    one empty partition. *)
Definition from_sequence {A} (seq : list A) (npartitions : option positive)
    : list (list A) :=
  match partition_all (partition_size (length seq) npartitions) seq with
  | [] => [[]]
  | parts => parts
  end.

(** [bag.map(f)], [bag.filter(p)], [bag.flatten()] and [bag.compute()] on
    the partitions; [f] and [p] may raise, and then so does the
    computation. *)
Definition map {A B} (f : A → result B) (bag : list (list A))
    : result (list (list B)) :=
  consume ((λ part, consume (f <$> part)) <$> bag).

Definition filter_part {A} (p : A → result bool) (part : list A)
    : result (list A) :=
  bind (consume ((λ x, bind (p x) (λ b, ret (x, b))) <$> part))
    (λ xs, ret (fst <$> filter (λ xb : A * bool, xb.2 = true) xs)).

Definition filter {A} (p : A → result bool) (bag : list (list A))
    : result (list (list A)) :=
  consume (filter_part p <$> bag).

Definition flatten {A} (bag : list (list (list A))) : list (list A) :=
  (λ part, concat part) <$> bag.

Definition compute {A} (bag : list (list A)) : list A := concat bag.

(** [bag.take(k)]: the first [k] items of the first partition. *)
Definition take {A} (k : nat) (bag : list (list A)) : list A :=
  List.firstn k (default [] (head bag)).

End Bag.

Section foldby_no_initial.
Context {A K : Type} `{Countable K}.

(** [toolz.reduceby(key, binop, seq)] without [init]: the first item of a
    key stands for itself. *)
Definition reduceby1 (key : A → K) (binop : A → A → A) (seq : list A)
    : gmap K A :=
  foldl (λ d item,
           match d !! key item with
           | None => <[key item := item]> d
           | Some v => <[key item := binop v item]> d
           end) ∅ seq.

(** [toolz.merge_with(partial(reduce, combine), dicts)]: under every key
    the values of the dicts that have it, folded from the left. *)
Definition merge_with_reduce (combine : A → A → A) (ds : list (gmap K A))
    : gmap K A :=
  foldl (union_with (λ x y, Some (combine x y))) ∅ ds.

(** The [while k > split_every] loop of [Bag.foldby] when no
    [combine_initial] is given. *)
Fixpoint foldby1_levels (fuel : nat) (combine : A → A → A)
    (ds : list (gmap K A)) : list (gmap K A) :=
  match fuel with
  | O => ds
  | S fuel' =>
      if decide (split_every < length ds)%nat
      then foldby1_levels fuel' combine
             (merge_with_reduce combine <$> partition_all split_every ds)
      else ds
  end.

(** [bag.foldby(key, binop=binop, combine=combine).compute()]. *)
Definition foldby1 (key : A → K) (binop combine : A → A → A)
    (bag : list (list A)) : list (K * A) :=
  let ds := (λ part, reduceby1 key binop part) <$> bag in
  dictitems (merge_with_reduce combine (foldby1_levels (length ds) combine ds)).
End foldby_no_initial.

End Py.

Import Py.

(** Code points of the letters the notebooks name. *)
Definition cyr_a : N := 1072.   (* U+0430, ord('а') *)
Definition cyr_ya : N := 1103.  (* U+044F, ord('я') *)
Definition cyr_yo : N := 1105.  (* U+0451, ord('ё') *)
Definition cyr_es : N := 1089.  (* U+0441, ord('с') *)
Definition latin_c : N := 99.   (* U+0063, ord('c') *)

(** ** multiprocessing_intro_v4.ipynb *)

Module Panov.
Section notebook.
(** [str.lower]. *)
Variable lower : list N → list N.
(** [open(file_name, encoding='cp1251')]: the decoded lines of the file. *)
Variable open : string → list (list N).

(** [set(chr(symb) for symb in range(ord('а'), ord('я') + 1))]. *)
Definition rus_symb : gset N := list_to_set (range cyr_a (cyr_ya + 1)).

Definition count_letters2 (file_name : string) : gmap N Z :=
  Counter (concat ((λ line, filter (.∈ rus_symb) (lower line))
                     <$> open file_name)).

(** Task 2, the sequential cell:
    [reduce(op.add, [count_letters2(join(path, f)) for f in onlyfiles])];
    here, as in the later cells, [onlyfiles] holds the joined paths. *)
Definition sequential (onlyfiles : list string) : result (gmap N Z) :=
  reduce add (count_letters2 <$> onlyfiles).

(** Tasks 3 and 5, [counter.counting(file_name)]: the tally that is put
    on the output queue (task 3) or returned (task 5). *)
Definition counting (file_name : string) : gmap N Z :=
  Counter (concat ((λ line, filter (.∈ rus_symb) (lower line))
                     <$> open file_name)).


(** Task 4, [counter.counting(queue, output)]: where a worker is in its
    [while True] loop. *)
Inductive worker : Type :=
  | Getting                       (* at [job = queue.get()] *)
  | Putting (cnt : gmap N Z)      (* at [output.put(cnt)] *)
  | Exited.                       (* after [break] *)

Record state : Type := State {
  queue : list (option string);
  output : list (gmap N Z);
  workers : list worker
}.

(** One step of worker [w]; [None] when it cannot move (it has exited, or
    it is blocked in [queue.get()] on an empty queue). *)
Definition worker_step (w : nat) (st : state) : option state :=
  match workers st !! w with
  | Some Getting =>
      match queue st with
      | [] => None
      | None :: q => Some (State q (output st) (<[w := Exited]> (workers st)))
      | Some job :: q =>
          Some (State q (output st)
                  (<[w := Putting (counting job)]> (workers st)))
      end
  | Some (Putting cnt) =>
      Some (State (queue st) (output st ++ [cnt])
              (<[w := Getting]> (workers st)))
  | _ => None
  end.

Definition step (st st' : state) : Prop :=
  ∃ w, worker_step w st = Some st'.

(** The queues and processes the task 4 driver sets up. *)
Definition start (CPU : nat) (onlyfiles : list string) : state :=
  State ((Some <$> onlyfiles) ++ replicate CPU None) [] (replicate CPU Getting).

(** Every [p.join()] has returned. *)
Definition joined (st : state) : Prop :=
  Forall (λ w, w = Exited) (workers st).

(** Task 4, after the joins:
    [reduce(op.add, [output.get() for p in processes])]. *)
Definition queue_driver_result (CPU : nat) (st : state)
    : option (result (gmap N Z)) :=
  if decide (CPU ≤ length (output st))%nat
  then Some (reduce add (take CPU (output st)))
  else None.

(** Task 5: [apply_async] per file, then [reduce] over the [get]s. *)
Definition apply_async_driver (onlyfiles : list string)
    (arrival : list nat) : option (result (gmap N Z)) :=
  reduce add <$> Pool.apply_async_get counting onlyfiles arrival.
End notebook.

(** Task 1, the cells before [count_letters2]. *)
Section task1.
(** [str.lower]. *)
Variable lower : list N → list N.
(** [open(file_name)], no encoding given: the decoded lines of the file. *)
Variable open : string → list (list N).

(** The class [[а-яА-ЯёЁ]]. *)
Definition russian_letter (c : N) : bool :=
  bool_decide (cyr_a ≤ c ≤ cyr_ya)%N || bool_decide (1040 ≤ c ≤ 1071)%N
  || bool_decide (c = cyr_yo) || bool_decide (c = 1025%N).

(** [count_letters]: [re.findall] over [file.read().lower()]. *)
Definition count_letters (file_name : string) : gmap N Z :=
  Counter (findall russian_letter (lower (concat (open file_name)))).

End task1.

(** Task 6. *)
Module task6.

(** [counter.counting(slices)]. *)
Definition counting (slices : list N) : gmap N Z :=
  Counter (filter (.∈ rus_symb) slices).

(** The pieces handed to the pool: [b = len(file) // cpu] and
    [file[b*i : b*(i+1)]] for [i in range(cpu)], on a machine with at
    least one core. *)
Definition pieces (file : list N) (cpu : nat) : list (list N) :=
  let b := (length file / cpu)%nat in
  (λ i, slice file (b * i) (b * (i + 1))) <$> seq 0 cpu.

(** The merge the cell is written for, [reduce(op.add, ...)] over the
    tallies of the pieces.  (As left in the notebook the cell drops the
    handles of its [apply_async] calls and prints an older [results].) *)
Definition chunked (file : list N) (cpu : nat) : result (gmap N Z) :=
  reduce add (counting <$> pieces file cpu).

End task6.

End Panov.

(** ** lec_multiprocessing_intro_v3.ipynb *)

Module Golyshkov.
Section notebook.
(** [str.lower]. *)
Variable lower : list N → list N.
(** [open(file_name, encoding='cp1251')]: the decoded lines of the file. *)
Variable open : string → list (list N).

(** [set(chr(c) for c in range(ord('а'), ord('я')))]. *)
Definition rus_symb : gset N := list_to_set (range cyr_a cyr_ya).

(** The character-valued names in scope where the element expression of
    the inner generator is evaluated: its loop variable, Latin [c].  The
    other names the function and the cells of the notebook bind
    ([file_name], [rus_symb], [file], [line], [p], [mp], ...) are all
    spelled in Latin letters. *)
Definition scope (c : N) : gmap (list N) N := {[ [latin_c] := c ]}.

(** Evaluating an identifier. *)
Definition name (sc : gmap (list N) N) (x : list N) : result N :=
  match sc !! x with
  | Some v => ret v
  | None => raise (NameError x)
  end.

(** The cp1251 [count_letters]: the generator yields the identifier
    spelled with Cyrillic [с], once for every character that passes the
    filter. *)
Definition count_letters (file_name : string) : result (gmap N Z) :=
  bind (consume (concat ((λ line, (λ c, name (scope c) [cyr_es])
                                    <$> filter (.∈ rus_symb) (lower line))
                           <$> open file_name)))
    (λ items, ret (Counter items)).

(** The [i]-th [random.choice] made by the worker started with [pos]. *)
Variable choice : nat → nat → N.

(** [rand_string(length, pos, output)] of rand_string_2.py. *)
Definition rand_string (length pos : nat) (output : list (nat * list N))
    : list (nat * list N) :=
  output ++ [(pos, choice pos <$> seq 0 length)].

(** The driver cell with [n] processes, [rand_string(5, x, output)] for
    [x in range(n)], whose puts reach the queue in the order [arrival];
    then [results = [output.get() for p in processes]]. *)
Definition tagged_results (n : nat) (arrival : list nat)
    : option (list (nat * list N)) :=
  let output := foldl (λ out pos, rand_string 5 pos out) [] arrival in
  if decide (n ≤ length output)%nat then Some (take n output) else None.

(** [results.sort()] and [[r[1] for r in results]]. *)
Definition sorted_strings (results : list (nat * list N)) : list (list N) :=
  snd <$> sort results.
End notebook.

(** rand_string_.py and the cell that starts its processes. *)
Module rand_string_.
Section file.
(** The number the generator draws for character [i] in process [p]. *)
Variable draw : nat → nat → nat.

(** [string.ascii_lowercase + string.ascii_uppercase + string.digits]. *)
Definition alphabet : list N := range 97 123 ++ range 65 91 ++ range 48 58.

(** [rand_string(length, output)], run in process [p]. *)
Definition rand_string (length p : nat) (output : list (list N))
    : list (list N) :=
  output ++ [(λ i, random_choice alphabet (draw p i)) <$> seq 0 length].

(** The cell with [n] processes [rand_string(5, output)] whose puts reach
    the queue in the order [arrival]; then
    [results = [output.get() for p in processes]]. *)
Definition results (n : nat) (arrival : list nat) : option (list (list N)) :=
  let output := foldl (λ out p, rand_string 5 p out) [] arrival in
  if decide (n ≤ length output)%nat then Some (take n output) else None.
End file.
End rand_string_.

(** cube_.py *)
Definition cube (x : Z) : Z := x ^ 3.

(** [pool = mp.Pool(processes=4)], [pool.map(cube_.cube, xs)]. *)
Definition map_cell (xs : list Z) (arrival : list nat) : option (list Z) :=
  Pool.map 4 cube xs arrival.

(** [[pool.apply_async(cube_.cube, args=(x,)) for x in xs]] and
    [[p.get() for p in results]]. *)
Definition apply_async_cell (xs : list Z) (arrival : list nat)
    : option (list Z) :=
  Pool.apply_async_get cube xs arrival.

End Golyshkov.

(** ** The notebook with count_chars_in_book *)

Module Unnamed.

(** What a [count_in_dir] hands back. *)
Inductive value : Type :=
  | Dict (d : gmap N Z)
  | List (l : list (gmap N Z)).

(** [re.match(r'[а-я]', char)] on a one-character string. *)
Definition re_match (char : N) : bool :=
  bool_decide (cyr_a ≤ char)%N && bool_decide (char ≤ cyr_ya)%N.

(** The body of the innermost loop of [count_chars_in_book], for a
    character that passed the test. *)
Definition count (chars : gmap N Z) (char : N) : gmap N Z :=
  match chars !! char with
  | Some n => <[char := n + 1]> chars
  | None => <[char := 0]> chars
  end.

Section notebook.
(** [str.lower]. *)
Variable lower : list N → list N.
(** [open(path, "r")]: the decoded lines of the file. *)
Variable open : string → list (list N).
(** [os.listdir]. *)
Variable listdir : string → list string.

(** Cell 2. *)
Definition count_chars_in_book (path : string) : gmap N Z :=
  foldl (λ chars line,
           foldl (λ chars char,
                    if re_match char then count chars char else chars)
                 chars (lower line))
        ∅ (open path).

Definition count_in_dir (dir_name : string) : gmap N Z :=
  foldl (λ total file,
           add total (count_chars_in_book (dir_name +:+ "/" +:+ file)))
        ∅ (listdir dir_name).
End notebook.

(** counters.py as last written (cell 3). *)
Module counters.
Section file.
Variable lower : list N → list N.
Variable open : string → list (list N).

(** [set("абвгдеёжзийклмнопрстуфхцчшщъыьэюя")]. *)
Definition alphabet : gset N :=
  list_to_set (range cyr_a (cyr_ya + 1)) ∪ {[cyr_yo]}.

Definition count_chars_in_book (filename : string) : gmap N Z :=
  foldl (λ chars line,
           foldl (λ chars char,
                    if bool_decide (char ∈ alphabet)
                    then count chars char else chars)
                 chars (lower line))
        ∅ (open ("text/" +:+ filename)).
End file.
End counters.

(** The pool cell. *)
Module pool.
Section cell.
Variable lower : list N → list N.
Variable open : string → list (list N).
Variable listdir : string → list string.

(** The local [chars_in_file]. *)
Inductive local : Type :=
  | Unbound
  | Bound (l : list (gmap N Z)).

(** [count_in_dir] with the pool; the batches of every [pool.map] come
    back in the order [arrival], and [None] stands for a [pool.map] that
    blocks. *)
Definition count_in_dir (dir_name : string) (arrival : list nat)
    : option (result value) :=
  let files := listdir dir_name in
  let chars_in_file :=
    foldl (λ acc file,
             acc ≫= λ _,
               Bound <$> Pool.map (length files)
                           (counters.count_chars_in_book lower open)
                           files arrival)
          (Some Unbound) files in
  chars_in_file ≫= λ loc,
    match loc with
    | Unbound => Some (raise UnboundLocalError)
    | Bound l => Some (ret (List l))
    end.
End cell.
End pool.

End Unnamed.

(** ** 02_bag_v2.ipynb *)

Module Leventsov.
Section notebook.
Context {record K : Type} `{Countable K}.
(** [item['name']]; [None] for a record without that key. *)
Variable getitem_name : record → option K.

(** [lambda item: item['name']], also what [key='name'] stands for. *)
Definition name (item : record) : result K :=
  match getitem_name item with
  | Some k => ret k
  | None => raise KeyError
  end.

Definition incr (tot : Z) (_ : record) : Z := tot + 1.

(** [js.groupby(lambda item: item['name'])
       .starmap(lambda k, v: (k, len(v))).compute()]. *)
Definition groupby_cell (js : list (list record)) : result (list (K * Z)) :=
  bind (groupby name js)
    (λ groups, ret ((λ kv, (kv.1, Z.of_nat (length kv.2))) <$> groups)).

(** [js.foldby(key='name', binop=incr, initial=0, combine=add,
               combine_initial=0).compute()]. *)
Definition foldby_cell (js : list (list record)) : result (list (K * Z)) :=
  foldby name incr 0 Z.add 0 js.
End notebook.

(** The cells on bags of integers. *)
Definition is_even (n : Z) : bool := bool_decide (n `mod` 2 = 0).

(** [db.from_sequence(seq).filter(is_even).map(lambda x: x ** 2)
      .compute()]. *)
Definition even_squares (seq : list Z) (npartitions : option positive)
    : result (list Z) :=
  bind (Bag.filter (λ n, ret (is_even n)) (Bag.from_sequence seq npartitions))
    (λ b, bind (Bag.map (λ x, ret (x ^ 2)) b)
            (λ c, ret (Bag.compute c))).


(** [b.foldby(is_even, binop=max, combine=max).compute()], where the
    cell has rebound [is_even] to [lambda x: x % 2]. *)
Definition foldby_max_cell (b : list (list Z)) : list (Z * Z) :=
  foldby1 (λ x, x `mod` 2) Z.max Z.max b.

(** The account records: JSON objects, any key of which may be missing. *)
Record transaction : Type := Transaction {
  transaction_id : option Z;
  amount : option Z
}.

Record account : Type := Account {
  account_id : option Z;
  account_name : option string;
  account_transactions : option (list transaction)
}.

(** A row of the denormalized data. *)
Record row : Type := Row {
  row_id : Z;
  row_name : string;
  row_amount : Z;
  row_transaction_id : Z
}.

(** [d[key]] on a JSON object. *)
Definition getitem {A} (field : option A) : result A :=
  match field with
  | Some v => ret v
  | None => raise KeyError
  end.

(** [denormalize(record)]: the list comprehension first reads
    [record['transactions']], then builds one dict per transaction. *)
Definition denormalize (record : account) : result (list row) :=
  bind (getitem (account_transactions record)) (λ ts,
    consume ((λ t,
      bind (getitem (account_id record)) (λ i,
      bind (getitem (account_name record)) (λ n,
      bind (getitem (amount t)) (λ a,
      bind (getitem (transaction_id t)) (λ ti,
        ret (Row i n a ti)))))) <$> ts)).

(** [transactions = js.map(denormalize).flatten()], computed. *)
Definition transactions (js : list (list account)) : result (list row) :=
  bind (Bag.map denormalize js)
    (λ b, ret (Bag.compute (Bag.flatten b))).
End Leventsov.

(** ** Vocabulary of the statements *)

(** How often [c] occurs in a text. *)
Definition occurrences (c : N) (text : list N) : Z :=
  Z.of_nat (length (filter (c =.) text)).

(** The lowercased text of a file, line after line. *)
Definition text (lower : list N → list N) (open : string → list (list N))
    (path : string) : list N :=
  concat (lower <$> open path).

(** A table none of whose counts is negative. *)
Definition nonneg (t : gmap N Z) : Prop :=
  ∀ k v, t !! k = Some v → 0 ≤ v.

(** The sum of the counts of [k] over a list of tables, a missing key
    counting as 0. *)
Definition entry_sum `{Countable K} (k : K) (l : list (gmap K Z)) : Z :=
  foldr (λ t s, default 0 (t !! k) + s) 0 l.

(** A table all of whose counts are positive. *)
Definition positive_counts `{Countable K} (t : gmap K Z) : Prop :=
  ∀ k v, t !! k = Some v → 0 < v.

(** How many records of a list carry the name [k]. *)
Definition name_count {record} `{Countable K}
    (getitem_name : record → option K) (k : K) (items : list record) : Z :=
  Z.of_nat (length (filter (λ item, getitem_name item = Some k) items)).

(** The entry a Counter sum keeps for a total [s]. *)
Definition kept (s : Z) : option Z :=
  if bool_decide (0 < s) then Some s else None.

(** A small file system for the examples.  [Sample.lower] is [str.lower]
    on the Basic Latin and Cyrillic letters, which is all the sample texts
    contain. *)
Module Sample.

Definition lower_char (c : N) : N :=
  if bool_decide (65 ≤ c ≤ 90)%N then (c + 32)%N
  else if bool_decide (1040 ≤ c ≤ 1071)%N then (c + 32)%N
  else if bool_decide (1024 ≤ c ≤ 1039)%N then (c + 80)%N
  else c.

Definition lower (s : list N) : list N := lower_char <$> s.

(** Two files of one line each, "а" and "ё"; every other path is an empty
    file. *)
Definition open (path : string) : list (list N) :=
  if decide (path = "text/a.txt") then [[cyr_a]]
  else if decide (path = "text/yo.txt") then [[cyr_yo]]
  else [].

(** A directory text/ with two files, a.txt and b.txt, each of them the
    one line "а". *)
Definition open2 (path : string) : list (list N) :=
  if decide (path = "text/a.txt") then [[cyr_a]]
  else if decide (path = "text/b.txt") then [[cyr_a]]
  else [].

Definition listdir2 (dir_name : string) : list string := ["a.txt"; "b.txt"].

Definition onlyfiles2 : list string := ["text/a.txt"; "text/b.txt"].

(** Three partial tallies, one of them with a zero count. *)
Definition tally1 : gmap N Z := {[cyr_a := 2]}.
Definition tally2 : gmap N Z := {[cyr_ya := 0]}.
Definition tally3 : gmap N Z := {[cyr_a := 1]}.

(** A source of random letters: draw [i] of worker [pos]. *)
Definition choice (pos i : nat) : N := N.of_nat (97 + (7 * pos + i) `mod` 26).

(** Account records reduced to (id, name), in three partitions. *)
Definition getitem_name (item : Z * string) : option string := Some item.2.

Definition js : list (list (Z * string)) :=
  [[(0, "Dan"); (1, "Alice")]; [(2, "Dan")]; []].

End Sample.

(** The task 4 system: the tallies that workers hold and have not put
    yet, the number of workers still in their loop, and a bound on the
    steps that are left. *)
Definition unput (ws : list Panov.worker) : list (gmap N Z) :=
  omap (λ w, match w with Panov.Putting cnt => Some cnt | _ => None end) ws.

Definition in_loop (w : Panov.worker) : bool :=
  match w with Panov.Exited => false | _ => true end.

Definition running (ws : list Panov.worker) : nat :=
  length (filter (λ w, in_loop w) ws).
Arguments running : simpl never.

Definition work_left (st : Panov.state) : nat :=
  (2 * length (Panov.queue st) + length (unput (Panov.workers st)))%nat.

(** What holds in every state the task 4 system reaches from its start:
    the queue is the file names not taken yet followed by one sentinel per
    worker still in its loop; no worker has left while file names remain;
    and the tallies put, held and still to be computed are together the
    tallies of the files. *)
Definition task4_inv (lower : list N → list N)
    (open : string → list (list N)) (CPU : nat) (onlyfiles : list string)
    (st : Panov.state) : Prop :=
  ∃ rest,
    Panov.queue st
      = (Some <$> rest) ++ replicate (running (Panov.workers st)) None ∧
    length (Panov.workers st) = CPU ∧
    ((running (Panov.workers st) < CPU)%nat → rest = []) ∧
    Panov.output st ++ unput (Panov.workers st)
        ++ (Panov.counting lower open <$> rest)
      ≡ₚ Panov.counting lower open <$> onlyfiles.

(** ** Vocabulary of the further statements *)

(** What the directory total of [Unnamed.count_in_dir] holds for [c]:
    over the files, one less than the occurrences of [c] in each file that
    has it. *)
Definition one_short_total (lower : list N → list N)
    (open : string → list (list N)) (c : N) (paths : list string) : Z :=
  foldr (λ path s, Z.max 0 (occurrences c (text lower open path) - 1) + s)
        0 paths.

(** More sample inputs. *)
Module Sample2.

(** The task 4 system on the directory of [Sample.open2] after all joins,
    with one worker and with two. *)
Definition joined1 : Panov.state :=
  Panov.State [] [{[cyr_a := 1]}; {[cyr_a := 1]}] [Panov.Exited].

Definition joined2 : Panov.state :=
  Panov.State [] [{[cyr_a := 1]}; {[cyr_a := 1]}] [Panov.Exited; Panov.Exited].

(** A text of five characters. *)
Definition five : list N := [cyr_a; cyr_ya; cyr_a; 32%N; cyr_a].

(** Two listings of the directory of [Sample.open2]. *)
Definition listdir_ab (dir_name : string) : list string := ["a.txt"; "b.txt"].
Definition listdir_ba (dir_name : string) : list string := ["b.txt"; "a.txt"].

(** An account record with two transactions. *)
Definition alice : Leventsov.account :=
  Leventsov.Account (Some 7) (Some "Alice")
    (Some [Leventsov.Transaction (Some 10) (Some 200);
           Leventsov.Transaction (Some 11) (Some (-5))]).

End Sample2.


(** [m] is the greatest of the [items] whose key is [k]. *)
Definition greatest_of_key {K} (key : Z → K) (k : K) (items : list Z)
    (m : Z) : Prop :=
  m ∈ items ∧ key m = k ∧ ∀ x, x ∈ items → key x = k → x ≤ m.

(** What a table of maxima holds under [k] for [items]: nothing when no
    item has the key, else the greatest item that has it. *)
Definition holds_greatest {K} (key : Z → K) (k : K) (items : list Z)
    (o : option Z) : Prop :=
  match o with
  | None => ∀ x, x ∈ items → key x ≠ k
  | Some m => greatest_of_key key k items m
  end.

(** The greater of two entries, either of which may be missing, and the
    greatest entry under [k] of a list of tables. *)
Definition omax : option Z → option Z → option Z :=
  union_with (λ a b, Some (Z.max a b)).

Definition lookup_max `{Countable K} (k : K) (ds : list (gmap K Z))
    : option Z :=
  foldr (λ d acc, omax (d !! k) acc) None ds.

(** * Properties *)

(** ** Counter arithmetic *)

Section counter_facts.
Implicit Types a b c t : gmap N Z.

Lemma lookup_add a b k : add a b !! k = add_entry (a !! k) (b !! k).
Proof. unfold add. rewrite lookup_merge. by destruct (a !! k), (b !! k). Qed.

Lemma add_entry_kept x y :
  add_entry x y = match x, y with
                  | None, None => None
                  | _, _ => kept (default 0 x + default 0 y)
                  end.
Proof. by destruct x, y. Qed.

Lemma add_comm a b : add a b = add b a.
Proof.
  apply map_eq; intros k. rewrite !lookup_add.
  destruct (a !! k), (b !! k); simpl; try done; by rewrite Z.add_comm.
Qed.

Lemma nonneg_empty : nonneg ∅.
Proof. intros k v. by rewrite lookup_empty. Qed.

Lemma nonneg_add a b : nonneg (add a b).
Proof.
  intros k v. rewrite lookup_add, add_entry_kept. unfold kept.
  destruct (a !! k), (b !! k); simpl; try done;
    case_bool_decide; intros; simplify_eq; lia.
Qed.

Lemma nonneg_default a k : nonneg a → 0 ≤ default 0 (a !! k).
Proof. intros Ha. destruct (a !! k) eqn:E; simpl; [by eapply Ha | done]. Qed.

(** What a sum holds under a key, on tables without negative counts. *)
Lemma lookup_add_nonneg a b k :
  nonneg a → nonneg b →
  add a b !! k = kept (default 0 (a !! k) + default 0 (b !! k)).
Proof.
  intros Ha Hb. rewrite lookup_add, add_entry_kept.
  destruct (a !! k), (b !! k); done.
Qed.

Lemma default_kept s : 0 ≤ s → default 0 (kept s) = s.
Proof. intros. unfold kept. case_bool_decide; simpl; lia. Qed.

Lemma add_assoc a b c :
  nonneg a → nonneg b → nonneg c → add (add a b) c = add a (add b c).
Proof.
  intros Ha Hb Hc. apply map_eq; intros k.
  pose proof (nonneg_default a k Ha). pose proof (nonneg_default b k Hb).
  pose proof (nonneg_default c k Hc).
  rewrite (lookup_add_nonneg (add a b) c), (lookup_add_nonneg a (add b c));
    auto using nonneg_add.
  rewrite !lookup_add_nonneg by done.
  rewrite !default_kept by lia. f_equal; lia.
Qed.

Lemma entry_sum_perm (k : N) (l l' : list (gmap N Z)) :
  l ≡ₚ l' → entry_sum k l = entry_sum k l'.
Proof. induction 1; simpl; lia. Qed.

(** Merging at least two tables leaves, under every key, the total of
    that key when it is positive and nothing otherwise. *)
Lemma lookup_foldl_add l t k :
  nonneg t → Forall nonneg l → l ≠ [] →
  foldl add t l !! k = kept (entry_sum k (t :: l)).
Proof.
  revert t. induction l as [|u l IH]; intros t Ht Hl Hne; [done|].
  inv Hl. destruct l as [|u' l].
  - simpl. rewrite lookup_add_nonneg by done. f_equal; lia.
  - change (foldl add t (u :: u' :: l)) with (foldl add (add t u) (u' :: l)).
    rewrite IH; [|apply nonneg_add|done|done].
    f_equal. cbn [entry_sum foldr].
    pose proof (nonneg_default t k Ht) as Ht'.
    pose proof (nonneg_default u k ltac:(done)) as Hu'.
    rewrite lookup_add_nonneg by done.
    rewrite default_kept by lia. lia.
Qed.

Lemma lookup_foldl_add_empty l k :
  Forall nonneg l → foldl add ∅ l !! k = kept (entry_sum k l).
Proof.
  intros Hl. destruct l as [|u l]; [done|].
  rewrite lookup_foldl_add by auto using nonneg_empty.
  cbn [entry_sum foldr]. by rewrite lookup_empty.
Qed.

Lemma foldl_add_empty_perm l l' :
  Forall nonneg l → l ≡ₚ l' → foldl add ∅ l = foldl add ∅ l'.
Proof.
  intros Hl Hp. apply map_eq; intros k.
  rewrite !lookup_foldl_add_empty; [|by rewrite <-Hp|done].
  by rewrite (entry_sum_perm k l l').
Qed.

Lemma reduce_add_perm l l' :
  Forall nonneg l → l ≡ₚ l' → reduce add l = reduce add l'.
Proof.
  intros Hl Hp. assert (Forall nonneg l') as Hl' by (by rewrite <-Hp).
  destruct l as [|t l].
  { apply Permutation_nil in Hp. by subst. }
  destruct l' as [|t' l'].
  { by apply Permutation_nil_r in Hp. }
  destruct l as [|u l].
  { apply Permutation_singleton_l in Hp. by simplify_eq. }
  destruct l' as [|u' l'].
  { apply Permutation_singleton_r in Hp. by simplify_eq. }
  unfold reduce, ret. f_equal. apply map_eq; intros k.
  inv Hl. inv Hl'.
  rewrite !lookup_foldl_add by done.
  by rewrite (entry_sum_perm k _ _ Hp).
Qed.
End counter_facts.

(** ** Counting the characters of a text *)

Section counting_facts.
Implicit Types (c k : N) (l : list N).

Lemma occurrences_nonneg c l : 0 ≤ occurrences c l.
Proof. unfold occurrences. lia. Qed.

Lemma occurrences_snoc c l x :
  occurrences c (l ++ [x]) = occurrences c l + (if decide (c = x) then 1 else 0).
Proof.
  unfold occurrences. rewrite filter_app, length_app.
  cbn. case_decide; simpl; lia.
Qed.

Lemma occurrences_pos c l : 0 < occurrences c l ↔ c ∈ l.
Proof.
  unfold occurrences. induction l as [|x l IH]; simpl.
  - split; [lia | by intros ?%not_elem_of_nil].
  - rewrite filter_cons. case_decide; subst; simpl.
    + split; [intros; by left | lia].
    + rewrite IH. split; [by right|]. by intros [?|?]%elem_of_cons.
Qed.

Lemma occurrences_filter (P : N → Prop) `{∀ x, Decision (P x)} c l :
  occurrences c (filter P l) = if decide (P c) then occurrences c l else 0.
Proof.
  unfold occurrences. induction l as [|x l IH]; simpl.
  - by case_decide.
  - rewrite !filter_cons.
    repeat (case_decide; subst; simpl in * ); rewrite ?filter_cons;
      repeat (case_decide; subst; simpl in * ); try done; lia.
Qed.

(** [Counter(iterable)] maps what occurs to how often it occurs. *)
Lemma lookup_Counter l k : Counter l !! k = kept (occurrences k l).
Proof.
  induction l as [|x l IH] using rev_ind; [done|].
  unfold Counter in *. rewrite foldl_app. cbn [foldl]. unfold tally at 1.
  rewrite occurrences_snoc. pose proof (occurrences_nonneg k l).
  destruct (decide (x = k)) as [->|Hne].
  - rewrite lookup_insert_eq, IH, default_kept by done.
    rewrite decide_True by done. unfold kept. by rewrite bool_decide_true by lia.
  - rewrite lookup_insert_ne, IH by done.
    rewrite decide_False by done. by rewrite Z.add_0_r.
Qed.

Lemma nonneg_Counter l : nonneg (Counter l).
Proof.
  intros k v. rewrite lookup_Counter. unfold kept.
  case_bool_decide; intros; simplify_eq; lia.
Qed.

Lemma elem_of_range a b c : c ∈ range a b ↔ (a ≤ c < b)%N.
Proof.
  unfold range. rewrite list_elem_of_fmap. split.
  - intros (n & -> & Hn). apply elem_of_seq in Hn. lia.
  - intros Hc. exists (N.to_nat c). split; [by rewrite N2Nat.id|].
    apply elem_of_seq. lia.
Qed.

Lemma elem_of_rus_symb c : c ∈ Panov.rus_symb ↔ (cyr_a ≤ c ≤ cyr_ya)%N.
Proof.
  unfold Panov.rus_symb. rewrite elem_of_list_to_set, elem_of_range. lia.
Qed.

Lemma filter_concat_fmap (P : N → Prop) `{∀ x, Decision (P x)}
    (f : list N → list N) (ls : list (list N)) :
  concat ((λ line, filter P (f line)) <$> ls) = filter P (concat (f <$> ls)).
Proof.
  induction ls as [|line ls IH]; [done|].
  cbn. by rewrite filter_app, IH.
Qed.

End counting_facts.

(** The per-file functions of the Panov notebook count every character of
    'а'..'я' exactly, and nothing else. *)
Lemma lookup_count_letters2 lower open file_name c :
  Panov.count_letters2 lower open file_name !! c =
    if bool_decide (cyr_a ≤ c ≤ cyr_ya)%N
    then kept (occurrences c (text lower open file_name))
    else None.
Proof.
  unfold Panov.count_letters2, text.
  rewrite filter_concat_fmap, lookup_Counter, occurrences_filter.
  case_bool_decide as Hc.
  - rewrite decide_True; [done | by apply elem_of_rus_symb].
  - rewrite decide_False; [done | by rewrite elem_of_rus_symb].
Qed.

Lemma nonneg_counting lower open file_name :
  nonneg (Panov.counting lower open file_name).
Proof. apply nonneg_Counter. Qed.

Lemma count_letters2_keys lower open file_name c :
  is_Some (Panov.count_letters2 lower open file_name !! c) ↔
    (cyr_a ≤ c ≤ cyr_ya)%N ∧ c ∈ text lower open file_name.
Proof.
  rewrite lookup_count_letters2, <-occurrences_pos. unfold kept.
  case_bool_decide as Hc; [case_bool_decide as Ho|].
  - split; [done | by eexists].
  - split; [by intros [? ?] | by intros [_ ?]].
  - split; [by intros [? ?] | by intros [? _]].
Qed.

(** ** count_chars_in_book *)

Lemma foldl_concat_fmap {A B C} (f : A → B → A) (h : C → list B) (a : A)
    (ls : list C) :
  foldl (λ acc line, foldl f acc (h line)) a ls = foldl f a (concat (h <$> ls)).
Proof.
  revert a. induction ls as [|line ls IH]; intros a; [done|].
  cbn. by rewrite foldl_app, IH.
Qed.

(** The loop of [count_chars_in_book] over a whole text: a character that
    passes [test] and occurs [n > 0] times ends up mapped to [n - 1]. *)
Lemma lookup_count_loop (test : N → bool) (l : list N) (c : N) :
  foldl (λ chars char, if test char then Unnamed.count chars char else chars)
        ∅ l !! c =
    if test c && bool_decide (0 < occurrences c l)
    then Some (occurrences c l - 1) else None.
Proof.
  induction l as [|x l IH] using rev_ind.
  { cbn. rewrite lookup_empty. by destruct (test c). }
  rewrite foldl_app. cbn [foldl]. rewrite occurrences_snoc.
  pose proof (occurrences_nonneg c l) as Hocc.
  set (T := foldl _ ∅ l) in *.
  destruct (decide (c = x)) as [<-|Hne].
  - destruct (test c) eqn:Ht; simpl in *.
    + rewrite bool_decide_true by lia. unfold Unnamed.count. rewrite IH.
      case_bool_decide.
      * rewrite lookup_insert_eq. f_equal; lia.
      * rewrite lookup_insert_eq. f_equal; lia.
    + by rewrite IH.
  - rewrite Z.add_0_r.
    destruct (test x); [|done]. unfold Unnamed.count.
    destruct (T !! x); by rewrite lookup_insert_ne.
Qed.

Lemma lookup_count_chars_in_book lower open path c :
  Unnamed.count_chars_in_book lower open path !! c =
    if bool_decide (cyr_a ≤ c ≤ cyr_ya)%N
       && bool_decide (0 < occurrences c (text lower open path))
    then Some (occurrences c (text lower open path) - 1) else None.
Proof.
  unfold Unnamed.count_chars_in_book, text.
  rewrite (foldl_concat_fmap
    (λ chars char, if Unnamed.re_match char then Unnamed.count chars char
                   else chars) lower).
  rewrite lookup_count_loop.
  assert (Unnamed.re_match c = bool_decide (cyr_a ≤ c ≤ cyr_ya)%N) as ->; [|done].
  unfold Unnamed.re_match. repeat case_bool_decide; (done || lia).
Qed.

(** C2 (the code at the failing input): on the one-line file "а" the letter
    'а' occurs once in the lowercased text, and [count_chars_in_book] maps it
    to 0, not to 1: the first occurrence of a character stores 0
    ([lookup_count_chars_in_book] gives the count for every file). *)
Theorem count_chars_in_book_one_short :
  occurrences cyr_a (text Sample.lower Sample.open "text/a.txt") = 1 ∧
  Unnamed.count_chars_in_book Sample.lower Sample.open "text/a.txt" !! cyr_a
    = Some 0.
Proof. split; by vm_compute. Qed.

(** ** The cp1251 count_letters *)

Lemma name_cyr_es c :
  Golyshkov.name (Golyshkov.scope c) [cyr_es] = raise (NameError [cyr_es]).
Proof.
  unfold Golyshkov.name, Golyshkov.scope.
  by rewrite lookup_singleton_ne.
Qed.

Lemma consume_raise {A} (e : exn) (n : nat) :
  consume (replicate n (raise e : result A)) =
    match n with O => ret [] | S _ => raise e end.
Proof. by destruct n. Qed.

Lemma elem_of_rus_symb_cp1251 c :
  c ∈ Golyshkov.rus_symb ↔ (cyr_a ≤ c < cyr_ya)%N.
Proof.
  unfold Golyshkov.rus_symb. by rewrite elem_of_list_to_set, elem_of_range.
Qed.

Lemma count_letters_iterator lower open file_name :
  concat ((λ line, (λ c, Golyshkov.name (Golyshkov.scope c) [cyr_es])
                     <$> filter (.∈ Golyshkov.rus_symb) (lower line))
            <$> open file_name) =
  replicate (length (filter (.∈ Golyshkov.rus_symb) (text lower open file_name)))
            (raise (NameError [cyr_es])).
Proof.
  unfold text. induction (open file_name) as [|line ls IH]; [done|].
  cbn. rewrite IH, filter_app, length_app, replicate_add. f_equal.
  induction (filter _ (lower line)) as [|c l IHl]; [done|].
  cbn. by rewrite name_cyr_es, IHl.
Qed.

(** C5 (amended): [count_letters] raises the undefined-name error for the
    Cyrillic identifier exactly on the files whose lowercased text holds a
    character of the set it builds, 'а' up to but not including 'я'; on
    every other file it returns the empty table. *)
Theorem count_letters_NameError lower open file_name :
  Golyshkov.count_letters lower open file_name =
    if decide (Exists (λ c, (cyr_a ≤ c < cyr_ya)%N) (text lower open file_name))
    then raise (NameError [cyr_es])
    else ret ∅.
Proof.
  unfold Golyshkov.count_letters.
  rewrite count_letters_iterator, consume_raise.
  destruct (filter _ _) as [|c l] eqn:Hf; simpl.
  - rewrite decide_False; [done|].
    rewrite Exists_exists. intros (c & Hc & Hin).
    eapply (filter_nil_not_elem_of _ _ c); [exact Hf| |done].
    by apply elem_of_rus_symb_cp1251.
  - rewrite decide_True; [done|].
    rewrite Exists_exists. exists c.
    assert (c ∈ filter (.∈ Golyshkov.rus_symb) (text lower open file_name))
      as [Hc ?]%list_elem_of_filter by (rewrite Hf; left).
    by apply elem_of_rus_symb_cp1251 in Hc.
Qed.

(** C5 (counterexample): on an empty file the generator never evaluates the
    undefined name, and [count_letters] returns the empty table. *)
Lemma count_letters_empty_file :
  Golyshkov.count_letters Sample.lower Sample.open "text/empty.txt" = ret ∅ ∧
  ∀ x, Golyshkov.count_letters Sample.lower Sample.open "text/empty.txt"
         ≠ raise (NameError x).
Proof. split; [by vm_compute | intros x; by vm_compute]. Qed.

(** C4 (the code at the failing input): the one-line file "ё" holds the
    letter 'ё', and none of the three counting functions has it as a key:
    the range-built sets and the regex [[а-я]] stop at 'я'. *)
Theorem yo_is_not_counted :
  cyr_yo ∈ text Sample.lower Sample.open "text/yo.txt" ∧
  Panov.count_letters2 Sample.lower Sample.open "text/yo.txt" !! cyr_yo = None ∧
  Golyshkov.count_letters Sample.lower Sample.open "text/yo.txt" = ret ∅ ∧
  Unnamed.count_chars_in_book Sample.lower Sample.open "text/yo.txt" !! cyr_yo
    = None.
Proof.
  split; [by apply list_elem_of_In; left|].
  repeat split; by vm_compute.
Qed.

(** Up to 'я' the functions that return do count every letter that occurs:
    it is a key of the table. *)
Lemma a_to_ya_are_keys lower open file_name c :
  (cyr_a ≤ c ≤ cyr_ya)%N → c ∈ text lower open file_name →
  is_Some (Panov.count_letters2 lower open file_name !! c) ∧
  is_Some (Unnamed.count_chars_in_book lower open file_name !! c).
Proof.
  intros Hc Hin. split; [by apply count_letters2_keys|].
  rewrite lookup_count_chars_in_book.
  apply occurrences_pos in Hin.
  by rewrite !bool_decide_true by done.
Qed.

(** ** Merging partial tallies *)

Lemma occurrences_app c (l1 l2 : list N) :
  occurrences c (l1 ++ l2) = occurrences c l1 + occurrences c l2.
Proof. unfold occurrences. rewrite filter_app, length_app. lia. Qed.

Lemma entry_sum_Counter k (ps : list (list N)) :
  entry_sum k (Counter <$> ps) = occurrences k (concat ps).
Proof.
  induction ps as [|p ps IH]; [done|].
  cbn. fold (entry_sum k (Counter <$> ps)).
  rewrite IH, occurrences_app, lookup_Counter, default_kept;
    [done | apply occurrences_nonneg].
Qed.

(** Summing the tallies of the parts of a text gives the tally of the
    whole. *)
Lemma reduce_add_Counter (ps : list (list N)) :
  ps ≠ [] → reduce add (Counter <$> ps) = ret (Counter (concat ps)).
Proof.
  intros Hne. destruct ps as [|p1 [|p2 ps]]; [done| |].
  - cbn. by rewrite app_nil_r.
  - unfold reduce, ret. cbn [fmap list_fmap]. f_equal.
    apply map_eq; intros k.
    rewrite lookup_foldl_add; [|apply nonneg_Counter| |done].
    + change (Counter p1 :: Counter p2 :: (Counter <$> ps))
        with (Counter <$> p1 :: p2 :: ps).
      by rewrite entry_sum_Counter, lookup_Counter.
    + constructor; [apply nonneg_Counter|].
      apply Forall_fmap, Forall_true. intros; apply nonneg_Counter.
Qed.

(** C9: Counter addition is commutative, and on tables without negative
    counts it is associative; so both merges the notebooks use, [reduce]
    with [operator.add] over the retrieved tallies and the loop
    [total = total + chars_in_file] from an empty Counter, give the same
    table for every order in which the same partial tallies are taken. *)
Theorem merge_order_independent (a b c : gmap N Z) (l l' : list (gmap N Z)) :
  nonneg a → nonneg b → nonneg c → Forall nonneg l → l ≡ₚ l' →
  add a b = add b a ∧
  add (add a b) c = add a (add b c) ∧
  reduce add l = reduce add l' ∧
  foldl add ∅ l = foldl add ∅ l'.
Proof.
  intros Ha Hb Hc Hl Hp. split; [apply add_comm|].
  split; [by apply add_assoc|].
  split; [by apply reduce_add_perm | by apply foldl_add_empty_perm].
Qed.

Lemma nonneg_singleton k (v : Z) : 0 ≤ v → nonneg {[k := v]}.
Proof.
  intros Hv k' v'. rewrite lookup_singleton_Some. by intros [_ <-].
Qed.

Lemma merge_order_independent_witness :
  add Sample.tally1 Sample.tally2 = add Sample.tally2 Sample.tally1 ∧
  add (add Sample.tally1 Sample.tally2) Sample.tally3
    = add Sample.tally1 (add Sample.tally2 Sample.tally3) ∧
  reduce add [Sample.tally1; Sample.tally2; Sample.tally3]
    = reduce add [Sample.tally3; Sample.tally1; Sample.tally2] ∧
  foldl add ∅ [Sample.tally1; Sample.tally2; Sample.tally3]
    = foldl add ∅ [Sample.tally3; Sample.tally1; Sample.tally2].
Proof.
  apply (merge_order_independent Sample.tally1 Sample.tally2 Sample.tally3
           [Sample.tally1; Sample.tally2; Sample.tally3]
           [Sample.tally3; Sample.tally1; Sample.tally2]).
  - apply nonneg_singleton. lia.
  - apply nonneg_singleton. lia.
  - apply nonneg_singleton. lia.
  - repeat constructor; apply nonneg_singleton; lia.
  - apply (bool_decide_unpack _). by vm_compute.
Defined.

(** The sequential [count_in_dir] does not depend on the order in which
    [os.listdir] lists the files. *)
Lemma nonneg_count_chars_in_book lower open path :
  nonneg (Unnamed.count_chars_in_book lower open path).
Proof.
  intros k v. rewrite lookup_count_chars_in_book.
  pose proof (occurrences_nonneg k (text lower open path)).
  repeat case_bool_decide; simpl; intros; simplify_eq; lia.
Qed.

Lemma count_in_dir_listing_order lower open listdir listdir' dir_name :
  listdir dir_name ≡ₚ listdir' dir_name →
  Unnamed.count_in_dir lower open listdir dir_name =
  Unnamed.count_in_dir lower open listdir' dir_name.
Proof.
  intros Hp. unfold Unnamed.count_in_dir.
  rewrite <-!(foldl_fmap add ∅ _
    (λ file, Unnamed.count_chars_in_book lower open (dir_name +:+ "/" +:+ file))).
  apply foldl_add_empty_perm; [|by apply fmap_Permutation].
  apply Forall_fmap, Forall_true. intros; apply nonneg_count_chars_in_book.
Qed.

(** ** Task 6: the text cut into pieces *)

Lemma concat_pieces (file : list N) (b n : nat) :
  concat ((λ i, slice file (b * i) (b * (i + 1))) <$> seq 0 n)
    = take (b * n) file.
Proof.
  induction n as [|n IH].
  - by rewrite Nat.mul_0_r.
  - rewrite seq_S, fmap_app, concat_app, IH. cbn.
    rewrite app_nil_r. unfold slice.
    replace (b * (n + 1) - b * n)%nat with b by lia.
    rewrite take_take_drop. f_equal; lia.
Qed.

Lemma filter_concat (P : N → Prop) `{∀ x, Decision (P x)} (ps : list (list N)) :
  filter P (concat ps) = concat (filter P <$> ps).
Proof.
  induction ps as [|p ps IH]; [done|]. cbn. by rewrite filter_app, IH.
Qed.

(** The pieces cover the first [b * cpu] characters and no more. *)
Lemma chunked_prefix (file : list N) (cpu : nat) :
  (1 ≤ cpu)%nat →
  Panov.task6.chunked file cpu =
    ret (Panov.task6.counting (take (length file / cpu * cpu) file)).
Proof.
  intros Hcpu. unfold Panov.task6.chunked, Panov.task6.counting.
  rewrite <-(concat_pieces file (length file / cpu) cpu).
  fold (Panov.task6.pieces file cpu).
  rewrite filter_concat, <-reduce_add_Counter.
  - by rewrite <-list_fmap_compose.
  - unfold Panov.task6.pieces. destruct cpu; [lia|]. done.
Qed.

(** When the number of workers divides the length nothing is left over. *)
Lemma chunked_divisible (file : list N) (cpu : nat) :
  (1 ≤ cpu)%nat → (length file `mod` cpu = 0)%nat →
  Panov.task6.chunked file cpu = ret (Panov.task6.counting file).
Proof.
  intros Hcpu Hmod. rewrite chunked_prefix by done.
  rewrite take_ge; [done|].
  pose proof (Nat.div_mod_eq (length file) cpu). lia.
Qed.

(** C3 (the code at the failing input): the text "ааа" cut for two workers
    gives [b = 1] and the pieces "а" and "а"; the third character is in no
    piece and the summed tallies count 'а' twice, the whole text three
    times. *)
Theorem chunked_drops_remainder :
  Panov.task6.pieces [cyr_a; cyr_a; cyr_a] 2 = [[cyr_a]; [cyr_a]] ∧
  Panov.task6.chunked [cyr_a; cyr_a; cyr_a] 2 = ret {[cyr_a := 2]} ∧
  Panov.task6.counting [cyr_a; cyr_a; cyr_a] = {[cyr_a := 3]}.
Proof. repeat split; by vm_compute. Qed.

(** ** The pool *)

Section pool_facts.
Context {A B : Type} (f : A → B).

Lemma lookup_run_jobs (xs : list A) (arrival : list nat) (j : nat) :
  Pool.run_jobs f xs arrival !! j =
    if decide (j ∈ arrival) then f <$> xs !! j else None.
Proof.
  unfold Pool.run_jobs.
  induction arrival as [|i arrival IH] using rev_ind.
  { cbn. rewrite lookup_empty. by rewrite decide_False by apply not_elem_of_nil. }
  rewrite foldl_app. cbn [foldl]. unfold Pool.job_done at 1.
  destruct (decide (j = i)) as [->|Hne].
  - rewrite (decide_True (P := i ∈ arrival ++ [i]))
      by (apply elem_of_app; right; by left).
    destruct (xs !! i) as [x|] eqn:Hx; [by rewrite lookup_insert_eq|].
    rewrite IH. by case_decide.
  - assert (j ∈ arrival ++ [i] ↔ j ∈ arrival) as Hin.
    { rewrite elem_of_app, list_elem_of_singleton. tauto. }
    destruct (xs !! i) as [x|]; [rewrite lookup_insert_ne by done|];
      rewrite IH; by apply decide_ext.
Qed.

(** Whatever the order in which the jobs come back, the [get]s on the
    handles give the results in submission order. *)
Lemma apply_async_get_any_order (xs : list A) (arrival : list nat) :
  (∀ j, (j < length xs)%nat → j ∈ arrival) →
  Pool.apply_async_get f xs arrival = Some (f <$> xs).
Proof.
  intros Hall. unfold Pool.apply_async_get. apply mapM_Some.
  apply Forall2_same_length_lookup. split.
  { by rewrite length_seq, length_fmap. }
  intros i j y [-> Hi]%lookup_seq Hy. cbn.
  rewrite lookup_run_jobs, decide_True by auto.
  by rewrite <-list_lookup_fmap.
Qed.

Lemma chunksize_pos (processes len : nat) :
  (0 < len)%nat → (0 < Pool.chunksize processes len)%nat.
Proof.
  intros Hlen. unfold Pool.chunksize. case_decide as Hmod; [|lia].
  destruct (decide (processes * 4 = 0)%nat) as [Hz|Hnz].
  { rewrite Hz in Hmod. cbn in Hmod. lia. }
  pose proof (Nat.div_mod_eq len (processes * 4)). 
  destruct (len / (processes * 4))%nat; lia.
Qed.

Lemma lookup_get_tasks (size : nat) (xs : list A) (i : nat) batch :
  Pool.get_tasks size xs !! i = Some batch →
  batch = slice xs (i * size) ((i + 1) * size) ∧ (i * size < length xs)%nat.
Proof.
  unfold Pool.get_tasks. destruct size as [|s]; [done|].
  rewrite list_lookup_fmap_Some. intros (i' & -> & [-> Hi]%lookup_seq).
  split; [done|]. cbn [plus] in *.
  destruct (decide (i * S s < length xs)%nat) as [|Hge]; [done|].
  exfalso. apply Nat.lt_nge in Hi. apply Hi.
  apply Nat.lt_succ_r, Nat.Div0.div_lt_upper_bound; lia.
Qed.

Lemma get_tasks_covers (size : nat) (xs : list A) (p : nat) :
  (0 < size)%nat → (p < length xs)%nat →
  (p / size < length (Pool.get_tasks size xs))%nat.
Proof.
  intros Hs Hp. unfold Pool.get_tasks. destruct size as [|s]; [lia|].
  rewrite length_fmap, length_seq.
  pose proof (Nat.div_mod_eq p (S s)).
  pose proof (Nat.mod_upper_bound p (S s)).
  apply Nat.lt_le_trans with (p / S s + 1)%nat; [lia|].
  apply Nat.div_le_lower_bound; lia.
Qed.

Lemma length_slice (xs : list A) (lo hi : nat) :
  length (slice xs lo hi) = ((hi - lo) `min` (length xs - lo))%nat.
Proof. unfold slice. by rewrite length_take, length_drop. Qed.

Lemma lookup_slice (xs : list A) (lo hi q : nat) :
  (q < hi - lo)%nat → slice xs lo hi !! q = xs !! (lo + q)%nat.
Proof. intros. unfold slice. by rewrite lookup_take_lt, lookup_drop. Qed.

Context (xs : list A) (size : nat).

(** The slots of the result list once the batches in [arrival] are in:
    the length never changes, and the slots of an arrived batch hold
    the images of its items. *)
Lemma MapResult_slots (arrival : list nat) :
  let value := foldl (Pool.batch_done f size (Pool.get_tasks size xs))
                 (replicate (length xs) None) arrival in
  length value = length xs ∧
  ∀ p x i, xs !! p = Some x → i ∈ arrival →
    (i * size ≤ p < (i + 1) * size)%nat →
    value !! p = Some (Some (f x)).
Proof.
  induction arrival as [|i arrival IH] using rev_ind.
  { cbn. split; [by rewrite length_replicate|].
    by intros ??? _ ?%not_elem_of_nil. }
  cbn zeta in *. rewrite foldl_app. cbn [foldl].
  destruct IH as [Hlen IH].
  set (value := foldl _ _ arrival) in *.
  unfold Pool.batch_done.
  destruct (Pool.get_tasks size xs !! i) as [batch|] eqn:Ht; cycle 1.
  { split; [done|]. intros p x i' Hp Hin Hrange.
    apply elem_of_app in Hin as [Hin|Hin%list_elem_of_singleton];
      [by apply (IH p x i')|].
    subst i'. exfalso.
    assert (0 < size)%nat by (destruct size; lia).
    pose proof (get_tasks_covers size xs p ltac:(done)
                  (lookup_lt_Some _ _ _ Hp)) as Hcov.
    assert (p / size = i)%nat as Hdiv 
      by (symmetry; apply (Nat.div_unique p size i (p - i * size)); lia).
    rewrite Hdiv in Hcov. apply lookup_lt_is_Some_2 in Hcov.
    rewrite Ht in Hcov. by destruct Hcov. }
  apply lookup_get_tasks in Ht as [-> Hlo].
  set (lo := (i * size)%nat) in *. set (hi := ((i + 1) * size)%nat) in *.
  assert (hi - lo = size)%nat as Hsize by lia.
  unfold Pool.MapResult_set. fold lo hi. split.
  { rewrite !length_app, !length_fmap, length_take, length_drop, length_slice.
    lia. }
  intros p x i' Hp Hin Hrange.
  pose proof (lookup_lt_Some _ _ _ Hp) as Hpn.
  destruct (decide (lo ≤ p < hi)%nat) as [Hmid|Hout].
  - rewrite lookup_app_r by (rewrite length_take; lia).
    rewrite length_take, Nat.min_l by lia.
    rewrite lookup_app_l
      by (rewrite !length_fmap, length_slice; lia).
    rewrite !list_lookup_fmap, lookup_slice by lia.
    replace (lo + (p - lo))%nat with p by lia. by rewrite Hp.
  - assert (i' ∈ arrival) as Hin'.
    { apply elem_of_app in Hin as [?|Heq%list_elem_of_singleton]; [done|].
      subst i' lo hi. lia. }
    rewrite <-(IH p x i' Hp Hin' Hrange).
    destruct (decide (p < lo)%nat).
    + by rewrite lookup_app_l, lookup_take_lt by (rewrite ?length_take; lia).
    + rewrite lookup_app_r by (rewrite length_take; lia).
      rewrite length_take, Nat.min_l by lia.
      rewrite lookup_app_r by (rewrite !length_fmap, length_slice; lia).
      rewrite !length_fmap, length_slice, lookup_drop. f_equal. lia.
Qed.
End pool_facts.

(** Whatever the order in which the batches come back, [pool.map] gives
    the results in the order of its input. *)
Lemma pool_map_any_order {A B} (f : A → B) (processes : nat) (xs : list A)
    (arrival : list nat) :
  (∀ i, (i < length (Pool.get_tasks (Pool.chunksize processes (length xs)) xs))%nat
        → i ∈ arrival) →
  Pool.map processes f xs arrival = Some (f <$> xs).
Proof.
  intros Hall. unfold Pool.map.
  set (size := Pool.chunksize processes (length xs)) in *.
  destruct (MapResult_slots f xs size arrival) as [Hlen Hslots].
  cbn zeta in *. set (value := foldl _ _ arrival) in *.
  assert (value = Some <$> (f <$> xs)) as ->.
  { apply list_eq; intros p. rewrite !list_lookup_fmap.
    destruct (xs !! p) as [x|] eqn:Hp; cbn.
    - pose proof (lookup_lt_Some _ _ _ Hp) as Hpn.
      assert (0 < size)%nat as Hs by (apply chunksize_pos; lia).
      pose proof (Nat.div_mod_eq p size).
      pose proof (Nat.mod_upper_bound p size).
      apply (Hslots p x (p / size)%nat Hp); [|lia].
      apply Hall. by apply get_tasks_covers.
    - apply lookup_ge_None. rewrite Hlen. by apply lookup_ge_None. }
  by apply mapM_fmap_Some.
Qed.

Lemma cube_spec x : Golyshkov.cube x = x * x * x.
Proof. unfold Golyshkov.cube. ring. Qed.

(** C7: for every list of integers, the [pool.map] cell and the
    [apply_async] / [get] cell both return the cubes of the inputs in input
    order, whatever the order in which the workers hand their batches or
    jobs back. *)
Theorem cube_through_pool (xs : list Z) (batches jobs : list nat) :
  batches ≡ₚ seq 0 (length (Pool.get_tasks (Pool.chunksize 4 (length xs)) xs)) →
  jobs ≡ₚ seq 0 (length xs) →
  Golyshkov.map_cell xs batches = Some ((λ x, x * x * x) <$> xs) ∧
  Golyshkov.apply_async_cell xs jobs = Some ((λ x, x * x * x) <$> xs).
Proof.
  intros Hb Hj.
  rewrite <-(list_fmap_ext Golyshkov.cube (λ x, x * x * x) xs)
    by (intros; apply cube_spec).
  split.
  - apply pool_map_any_order. intros i Hi.
    rewrite Hb. apply elem_of_seq. lia.
  - apply apply_async_get_any_order. intros j Hj'.
    rewrite Hj. apply elem_of_seq. lia.
Qed.

Lemma cube_through_pool_witness :
  Golyshkov.map_cell [1; 2; 3; 4; 5; 6] [3; 0; 5; 1; 4; 2]%nat
    = Some [1; 8; 27; 64; 125; 216] ∧
  Golyshkov.apply_async_cell [1; 2; 3; 4; 5; 6] [5; 4; 0; 2; 1; 3]%nat
    = Some [1; 8; 27; 64; 125; 216].
Proof.
  apply (cube_through_pool [1; 2; 3; 4; 5; 6]
           [3; 0; 5; 1; 4; 2]%nat [5; 4; 0; 2; 1; 3]%nat).
  - apply (bool_decide_unpack _). by vm_compute.
  - apply (bool_decide_unpack _). by vm_compute.
Defined.

(** ** Sorting tagged results *)

#[local] Instance tuple_le_trans : Transitive tuple_le.
Proof.
  intros x y z [Hxy| ->] [Hyz| ->]; [|by left|by left|by right].
  left. by trans y.
Qed.

#[local] Instance tuple_le_antisymm : AntiSymm (=) tuple_le.
Proof.
  intros x y [Hxy| ->] [Hyx|Heq]; [|done..].
  destruct (irreflexivity lexico x). by trans y.
Qed.

#[local] Instance tuple_le_total : Total tuple_le.
Proof.
  intros x y. destruct (trichotomyT lexico x y) as [[?| ->]|?].
  - left. by left.
  - left. by right.
  - right. by left.
Qed.

Lemma tagged_in_order_Sorted (s : nat → list N) (a n : nat) :
  Sorted tuple_le ((λ pos, (pos, s pos)) <$> seq a n).
Proof.
  revert a. induction n as [|n IH]; intros a; [constructor|].
  cbn. constructor; [apply IH|].
  destruct n as [|n]; constructor.
  left. left. cbn. unfold lexico, nat_lexico. lia.
Qed.

Lemma rand_string_output choice (length : nat) (arrival : list nat)
    (out : list (nat * list N)) :
  foldl (λ out pos, Golyshkov.rand_string choice length pos out) out arrival =
    out ++ ((λ pos, (pos, choice pos <$> seq 0 length)) <$> arrival).
Proof.
  revert out. induction arrival as [|pos arrival IH]; intros out.
  - by rewrite app_nil_r.
  - cbn. rewrite IH. unfold Golyshkov.rand_string. by rewrite <-app_assoc.
Qed.

(** C8: with [n] workers tagged [0 .. n-1], whatever the order in which
    their (position, string) pairs reach the queue, the driver collects
    all of them, and sorting the pairs and keeping the strings gives the
    string of worker 0, then of worker 1, and so on: the same list for
    every order of arrival. *)
Theorem sort_restores_positions (choice : nat → nat → N) (n : nat)
    (arrival : list nat) :
  arrival ≡ₚ seq 0 n →
  ∃ results,
    Golyshkov.tagged_results choice n arrival = Some results ∧
    results ≡ₚ (λ pos, (pos, choice pos <$> seq 0 5)) <$> arrival ∧
    Golyshkov.sorted_strings results =
      (λ pos, choice pos <$> seq 0 5) <$> seq 0 n.
Proof.
  intros Hp.
  exists ((λ pos, (pos, choice pos <$> seq 0 5)) <$> arrival).
  assert (length arrival = n) as Hlen by (by rewrite Hp, length_seq).
  split; [|split; [done|]].
  - unfold Golyshkov.tagged_results. rewrite rand_string_output. cbn.
    rewrite length_fmap, decide_True by lia.
    by rewrite take_ge by (rewrite length_fmap; lia).
  - unfold Golyshkov.sorted_strings, sort.
    rewrite (Sorted_unique tuple_le
               (merge_sort tuple_le
                  ((λ pos, (pos, choice pos <$> seq 0 5)) <$> arrival))
               ((λ pos, (pos, choice pos <$> seq 0 5)) <$> seq 0 n)).
    + rewrite <-list_fmap_compose. by apply list_fmap_ext.
    + apply (Sorted_merge_sort _).
    + apply tagged_in_order_Sorted.
    + rewrite merge_sort_Permutation. by apply fmap_Permutation.
Qed.

Lemma sort_restores_positions_witness :
  ∃ results,
    Golyshkov.tagged_results Sample.choice 4 [0; 2; 1; 3]%nat = Some results ∧
    results ≡ₚ (λ pos, (pos, Sample.choice pos <$> seq 0 5))
                 <$> [0; 2; 1; 3]%nat ∧
    Golyshkov.sorted_strings results =
      (λ pos, Sample.choice pos <$> seq 0 5) <$> seq 0 4.
Proof.
  apply (sort_restores_positions Sample.choice 4 [0; 2; 1; 3]%nat).
  apply (bool_decide_unpack _). by vm_compute.
Defined.

(** ** groupby and foldby *)

Section bag_facts.
Context {record K : Type} `{Countable K}.
Variable getitem_name : record → option K.

Local Abbreviation name := (Leventsov.name getitem_name).
Local Abbreviation count := (name_count getitem_name).
Local Abbreviation named := (λ item : record, is_Some (getitem_name item)).

Implicit Types (k : K) (d : gmap K Z) (ds : list (gmap K Z)).

Lemma name_count_nonneg k items : 0 ≤ count k items.
Proof. unfold name_count. lia. Qed.

Lemma name_count_app k items1 items2 :
  count k (items1 ++ items2) = count k items1 + count k items2.
Proof. unfold name_count. rewrite filter_app, length_app. lia. Qed.

Lemma name_count_snoc k items item :
  count k (items ++ [item]) =
    count k items + (if decide (getitem_name item = Some k) then 1 else 0).
Proof.
  rewrite name_count_app. f_equal. unfold name_count.
  rewrite filter_cons. by case_decide.
Qed.

Lemma positive_counts_kept d :
  (∀ k, ∃ s, d !! k = kept s) → positive_counts d.
Proof.
  intros Hd k v Hk. destruct (Hd k) as [s Hs]. rewrite Hs in Hk.
  unfold kept in Hk. case_bool_decide; by simplify_eq.
Qed.

(** [toolz.reduceby] with [incr]: every name is mapped to the number of
    records that carry it. *)
Lemma reduceby_incr (part : list record) :
  Forall named part →
  ∃ d, reduceby name Leventsov.incr part 0 = ret d ∧
       ∀ k, d !! k = kept (count k part).
Proof.
  unfold reduceby. induction part as [|item part IH] using rev_ind.
  { intros _. exists ∅. split; [done|]. intros k. by rewrite lookup_empty. }
  intros [Hpart [[k' Hitem] _]%Forall_cons]%Forall_app.
  destruct (IH Hpart) as (d & Hd & Hlookup).
  rewrite foldl_app. cbn [foldl]. rewrite Hd.
  unfold reduceby_step, Leventsov.name. cbn. rewrite Hitem. cbn.
  eexists; split; [done|]. intros k.
  rewrite name_count_snoc, Hitem. unfold Leventsov.incr.
  pose proof (name_count_nonneg k part).
  destruct (decide (k' = k)) as [->|Hne].
  - rewrite lookup_insert_eq, Hlookup, default_kept, decide_True by done.
    unfold kept. by rewrite bool_decide_true by lia.
  - rewrite lookup_insert_ne, Hlookup, decide_False by congruence.
    by rewrite Z.add_0_r.
Qed.

(** [toolz.groupby]: every name is mapped to the records that carry it. *)
Lemma toolz_groupby_lookup (items : list record) :
  Forall named items →
  ∃ g, toolz_groupby name items = ret g ∧
       ∀ k, Z.of_nat ∘ length <$> g !! k = kept (count k items).
Proof.
  unfold toolz_groupby. induction items as [|item items IH] using rev_ind.
  { intros _. exists ∅. split; [done|]. intros k. by rewrite lookup_empty. }
  intros [Hitems [[k' Hitem] _]%Forall_cons]%Forall_app.
  destruct (IH Hitems) as (g & Hg & Hlookup).
  rewrite foldl_app. cbn [foldl]. rewrite Hg.
  unfold groupby_step, Leventsov.name. cbn. rewrite Hitem. cbn.
  eexists; split; [done|]. intros k.
  rewrite name_count_snoc, Hitem.
  pose proof (name_count_nonneg k items).
  destruct (decide (k' = k)) as [->|Hne].
  - rewrite lookup_insert_eq, decide_True by done. cbn.
    rewrite length_app. cbn. specialize (Hlookup k).
    unfold kept in *. rewrite bool_decide_true by lia. f_equal.
    destruct (g !! k) as [items'|]; cbn in *;
      case_bool_decide; simplify_eq; lia.
  - rewrite lookup_insert_ne, Hlookup, decide_False by congruence.
    by rewrite Z.add_0_r.
Qed.

(** Folding [combine2] over the items of one dict. *)
Lemma lookup_foldl_combine2 (l : list (K * Z)) (acc : gmap K Z) k :
  NoDup l.*1 →
  foldl (λ d (x : K * Z), <[x.1 := default 0 (d !! x.1) + x.2]> d) acc l !! k =
    match (list_to_map l : gmap K Z) !! k with
    | Some v => Some (default 0 (acc !! k) + v)
    | None => acc !! k
    end.
Proof.
  revert acc. induction l as [|[k1 v1] l IH]; intros acc Hnd; [done|].
  apply NoDup_cons in Hnd as [Hk1 Hnd]. cbn [foldl list_to_map foldr fst snd].
  rewrite IH by done. cbn.
  destruct (decide (k1 = k)) as [->|Hne].
  - rewrite !lookup_insert_eq.
    by rewrite (not_elem_of_list_to_map_1 l k Hk1).
  - by rewrite !lookup_insert_ne by done.
Qed.

(** One aggregation node adds up, name by name, the counts of its
    dicts. *)
Lemma lookup_foldby_aggregate ds k :
  Forall positive_counts ds →
  foldby_aggregate Z.add 0 ds !! k = kept (entry_sum k ds).
Proof.
  unfold foldby_aggregate. induction ds as [|d ds IH] using rev_ind.
  { intros _. cbn. by rewrite lookup_empty. }
  intros [Hds [Hd _]%Forall_cons]%Forall_app.
  rewrite fmap_app, concat_app, foldl_app. cbn. rewrite app_nil_r.
  unfold dictitems in *.
  rewrite lookup_foldl_combine2 by apply NoDup_fst_map_to_list.
  rewrite list_to_map_to_list, (IH Hds).
  assert (0 ≤ entry_sum k ds) as Hsum.
  { clear -Hds. induction Hds as [|d ds Hd _ IHs]; cbn; [done|].
    fold (entry_sum k ds).
    destruct (d !! k) as [v|] eqn:Hv; cbn; [|lia].
    apply Hd in Hv. lia. }
  assert (entry_sum k (ds ++ [d]) = entry_sum k ds + default 0 (d !! k)) as ->.
  { clear. induction ds as [|d' ds IHs]; cbn; [lia|].
    fold (entry_sum k ds) (entry_sum k (ds ++ [d])). lia. }
  destruct (d !! k) as [v|] eqn:Hv; cbn.
  - apply Hd in Hv. rewrite default_kept by done.
    unfold kept. by rewrite bool_decide_true by lia.
  - by rewrite Z.add_0_r.
Qed.

Lemma positive_counts_foldby_aggregate ds :
  Forall positive_counts ds → positive_counts (foldby_aggregate Z.add 0 ds).
Proof.
  intros Hds. apply positive_counts_kept. intros k.
  eexists. by apply lookup_foldby_aggregate.
Qed.
End bag_facts.

Lemma concat_slices {A} (l : list A) (b n : nat) :
  concat ((λ i, slice l (i * b) ((i + 1) * b)) <$> seq 0 n) = take (n * b) l.
Proof.
  induction n as [|n IH]; [done|].
  rewrite seq_S, fmap_app, concat_app, IH. cbn.
  rewrite app_nil_r. unfold slice.
  replace ((n + 1) * b - n * b)%nat with b by lia.
  rewrite take_take_drop. f_equal; lia.
Qed.

Lemma concat_partition_all {A} (n : nat) (l : list A) :
  (0 < n)%nat → concat (partition_all n l) = l.
Proof.
  intros Hn. unfold partition_all. destruct n as [|m]; [lia|].
  rewrite concat_slices, take_ge; [done|].
  pose proof (Nat.div_mod_eq (length l + S m - 1) (S m)).
  pose proof (Nat.mod_upper_bound (length l + S m - 1) (S m)). lia.
Qed.

Lemma length_partition_all {A} (n : nat) (l : list A) :
  (1 < n)%nat → (n < length l)%nat →
  (length (partition_all n l) < length l)%nat.
Proof.
  intros Hn Hl. unfold partition_all. destruct n as [|m]; [lia|].
  rewrite length_fmap, length_seq.
  apply Nat.Div0.div_lt_upper_bound. nia.
Qed.

Section foldby_facts.
Context `{Countable K}.
Implicit Types (k : K) (d : gmap K Z) (ds : list (gmap K Z)).

Lemma entry_sum_cons k d ds :
entry_sum k (d :: ds) = default 0 (d !! k) + entry_sum k ds.
Proof. done. Qed.

Lemma entry_sum_app k ds1 ds2 :
entry_sum k (ds1 ++ ds2) = entry_sum k ds1 + entry_sum k ds2.
Proof.
induction ds1 as [|d ds1 IH]; [done|].
rewrite <-app_comm_cons, !entry_sum_cons, IH. lia.
Qed.

Lemma entry_sum_positive_counts k ds :
Forall positive_counts ds → 0 ≤ entry_sum k ds.
Proof.
induction 1 as [|d ds Hd _ IH]; cbn; [done|]. fold (entry_sum k ds).
destruct (d !! k) as [v|] eqn:Hv; cbn; [|lia]. apply Hd in Hv. lia.
Qed.

Lemma entry_sum_aggregate k (groups : list (list (gmap K Z))) :
Forall (Forall positive_counts) groups →
entry_sum k (foldby_aggregate Z.add 0 <$> groups) = entry_sum k (concat groups).
Proof.
induction 1 as [|ds groups Hds _ IH]; [done|].
rewrite fmap_cons, entry_sum_cons, IH. cbn [concat].
rewrite entry_sum_app, lookup_foldby_aggregate by done.
by rewrite default_kept by (by apply entry_sum_positive_counts).
Qed.

Lemma Forall_partition_all {A} (P : A → Prop) (n : nat) (l : list A) :
Forall P l → Forall (Forall P) (partition_all n l).
Proof.
intros Hl. unfold partition_all. destruct n as [|m]; [constructor|].
apply Forall_fmap, Forall_true. intros i. cbn. unfold slice.
by apply Forall_take, Forall_drop.
Qed.

(** The aggregation levels keep, name by name, the sum of the counts. *)
Lemma foldby_levels_sum (fuel : nat) ds k :
Forall positive_counts ds →
Forall positive_counts (foldby_levels fuel Z.add 0 ds) ∧
entry_sum k (foldby_levels fuel Z.add 0 ds) = entry_sum k ds.
Proof.
revert ds. induction fuel as [|fuel IH]; intros ds Hds; [done|].
cbn [foldby_levels]. case_decide; [|done].
pose proof (Forall_partition_all _ split_every ds Hds) as Hgroups.
destruct (IH (foldby_aggregate Z.add 0 <$> partition_all split_every ds))
  as [Hpos Hsum].
{ apply Forall_fmap. eapply Forall_impl; [exact Hgroups|].
  intros group. apply positive_counts_foldby_aggregate. }
split; [done|]. rewrite Hsum, entry_sum_aggregate by done.
by rewrite concat_partition_all by (unfold split_every; lia).
Qed.

(** The loop is given enough rounds to leave by its own test. *)
Lemma foldby_levels_exits (fuel : nat) ds :
(length ds ≤ fuel)%nat →
(length (foldby_levels fuel Z.add 0%Z ds) ≤ split_every)%nat.
Proof.
revert ds. induction fuel as [|fuel IH]; intros ds Hlen.
{ cbn. lia. }
cbn [foldby_levels]. case_decide as Hbig; [|lia].
apply IH. rewrite length_fmap.
pose proof (length_partition_all split_every ds). unfold split_every in *.
lia.
Qed.
End foldby_facts.

Section groupby_foldby.
Context {record K : Type} `{Countable K}.
Variable getitem_name : record → option K.

Local Abbreviation name := (Leventsov.name getitem_name).
Local Abbreviation count := (name_count getitem_name).
Local Abbreviation named := (λ item : record, is_Some (getitem_name item)).

(** The per-partition dicts of [foldby]. *)
Lemma consume_reduceby (js : list (list record)) :
Forall (Forall named) js →
∃ ds, consume ((λ part, reduceby name Leventsov.incr part 0) <$> js) = ret ds ∧
      Forall positive_counts ds ∧
      ∀ k, entry_sum k ds = count k (concat js).
Proof.
induction 1 as [|part js Hpart _ (ds & Hds & Hpos & Hsum)].
{ exists []. by repeat split. }
destruct (reduceby_incr getitem_name part Hpart) as (d & Hd & Hlookup).
exists (d :: ds). split; [|split].
- cbn. by rewrite Hd, Hds.
- constructor; [|done]. apply positive_counts_kept. intros k. by eexists.
- intros k. cbn [concat].
  rewrite entry_sum_cons, Hsum, Hlookup, name_count_app.
  by rewrite default_kept by apply name_count_nonneg.
Qed.

Lemma kept_Some s c : kept s = Some c ↔ c = s ∧ 0 < c.
Proof.
unfold kept. case_bool_decide; split.
- by intros [= <-].
- by intros [-> _].
- done.
- intros [-> ?]. lia.
Qed.

(** C6: on every bag whose records all have a name, however the records
  are spread over the partitions, the groupby cell and the foldby cell
  both return, and they return the same (name, count) pairs, each pair
  once: a name is paired with the number of records that carry it. *)
Theorem groupby_foldby_agree (js : list (list record)) :
Forall (Forall named) js →
∃ by_group by_fold,
  Leventsov.groupby_cell getitem_name js = ret by_group ∧
  Leventsov.foldby_cell getitem_name js = ret by_fold ∧
  by_group ≡ₚ by_fold ∧
  ∀ k c, (k, c) ∈ by_fold ↔ c = count k (concat js) ∧ 0 < c.
Proof.
intros Hjs.
destruct (toolz_groupby_lookup getitem_name (concat js)) as (g & Hg & Hgk).
{ by apply Forall_concat. }
destruct (consume_reduceby js Hjs) as (ds & Hds & Hpos & Hsum).
set (levels := foldby_levels (length ds) Z.add 0 ds).
set (by_fold := foldby_aggregate Z.add 0 levels).
assert (∀ k, by_fold !! k = kept (count k (concat js))) as Hfold.
{ intros k. unfold by_fold, levels.
  destruct (foldby_levels_sum (length ds) ds k Hpos) as [Hpos' Hsum'].
  by rewrite lookup_foldby_aggregate, Hsum', Hsum. }
exists ((λ kv, (kv.1, Z.of_nat (length kv.2))) <$> map_to_list g),
       (map_to_list by_fold).
split; [|split; [|split]].
- unfold Leventsov.groupby_cell, groupby. by rewrite Hg.
- unfold Leventsov.foldby_cell, foldby. by rewrite Hds.
- assert (by_fold = (Z.of_nat ∘ length <$> g)) as ->.
  { apply map_eq; intros k. by rewrite Hfold, lookup_fmap, Hgk. }
  rewrite map_to_list_fmap.
  by rewrite (list_fmap_ext _ (prod_map id (Z.of_nat ∘ length))
                (map_to_list g)) by (by intros []).
- intros k c. by rewrite elem_of_map_to_list, Hfold, kept_Some.
Qed.
End groupby_foldby.

Lemma groupby_foldby_agree_witness :
  ∃ by_group by_fold,
    Leventsov.groupby_cell Sample.getitem_name Sample.js = ret by_group ∧
    Leventsov.foldby_cell Sample.getitem_name Sample.js = ret by_fold ∧
    by_group ≡ₚ by_fold ∧
    ∀ k c, (k, c) ∈ by_fold ↔
      c = name_count Sample.getitem_name k (concat Sample.js) ∧ 0 < c.
Proof.
  apply (groupby_foldby_agree Sample.getitem_name Sample.js).
  repeat constructor; by eexists.
Defined.

(** ** Task 4: workers on a shared queue *)

Section task4.
Variable lower : list N → list N.
Variable open : string → list (list N).

Local Abbreviation step := (Panov.step lower open).
Local Abbreviation counting := (Panov.counting lower open).
Local Abbreviation inv := (task4_inv lower open).

Lemma split_insert (ws : list Panov.worker) (w : nat) (old new : Panov.worker) :
  ws !! w = Some old →
  ∃ l1 l2, ws = l1 ++ old :: l2 ∧ <[w := new]> ws = l1 ++ new :: l2.
Proof.
  intros Hw. exists (take w ws), (drop (S w) ws). split.
  - symmetry. by apply take_drop_middle.
  - apply insert_take_drop. by eapply lookup_lt_Some.
Qed.

Lemma running_app ws1 ws2 : running (ws1 ++ ws2) = (running ws1 + running ws2)%nat.
Proof. unfold running. by rewrite filter_app, length_app. Qed.

Lemma running_cons w ws :
  running (w :: ws) = ((if in_loop w then 1 else 0) + running ws)%nat.
Proof. unfold running. rewrite filter_cons. by destruct w. Qed.

Lemma unput_app ws1 ws2 : unput (ws1 ++ ws2) = unput ws1 ++ unput ws2.
Proof. apply omap_app. Qed.

Lemma running_replicate_Getting n : running (replicate n Panov.Getting) = n.
Proof.
  induction n as [|n IH]; [done|].
  cbn [replicate]. by rewrite running_cons, IH.
Qed.

Lemma unput_replicate_Getting n : unput (replicate n Panov.Getting) = [].
Proof. induction n as [|n IH]; [done|]. exact IH. Qed.

Lemma running_0_Exited ws :
  running ws = 0%nat ↔ Forall (λ w, w = Panov.Exited) ws.
Proof.
  induction ws as [|w ws IH].
  - split; [constructor | done].
  - rewrite running_cons, Forall_cons, <-IH. destruct w; cbn.
    + split; [lia | by intros [? _]].
    + split; [lia | by intros [? _]].
    + split; [done | by intros [_ ?]].
Qed.

(** Every step uses up some of the work that is left. *)
Lemma step_work_left st st' : step st st' → (work_left st' < work_left st)%nat.
Proof.
  intros [w Hstep]. destruct st as [q out ws].
  unfold Panov.worker_step in Hstep. cbn in Hstep.
  destruct (ws !! w) as [[|cnt|]|] eqn:Hw; [| |done..].
  - destruct q as [|[job|] q]; simplify_eq; unfold work_left;
      cbn [Panov.queue Panov.workers].
    + destruct (split_insert ws w _ (Panov.Putting (counting job)) Hw)
        as (l1 & l2 & -> & ->).
      rewrite !unput_app. cbn. rewrite !length_app. cbn. lia.
    + destruct (split_insert ws w _ Panov.Exited Hw) as (l1 & l2 & -> & ->).
      rewrite !unput_app. cbn. lia.
  - destruct (split_insert ws w _ Panov.Getting Hw) as (l1 & l2 & -> & Hex).
    simplify_eq. unfold work_left. cbn [Panov.queue Panov.workers].
    rewrite Hex, !unput_app. cbn. rewrite !length_app. cbn. lia.
Qed.

Lemma steps_terminate st : sn step st.
Proof.
  remember (work_left st) as n eqn:Hn. revert st Hn.
  induction n as [n IH] using lt_wf_ind. intros st ->.
  constructor. intros st' Hstep. unfold flip in Hstep.
  eapply IH; [|done]. by apply step_work_left.
Qed.

Lemma nsteps_work_left n st st' :
  nsteps step n st st' → (n + work_left st' ≤ work_left st)%nat.
Proof.
  induction 1 as [|n st st1 st' Hstep _ IH]; [done|].
  apply step_work_left in Hstep. lia.
Qed.
Lemma inv_start CPU onlyfiles : inv CPU onlyfiles (Panov.start CPU onlyfiles).
Proof.
  exists onlyfiles. unfold Panov.start. cbn.
  rewrite running_replicate_Getting, unput_replicate_Getting, length_replicate.
  split_and!; [done|done|lia|done].
Qed.

Lemma inv_step CPU onlyfiles st st' :
  inv CPU onlyfiles st → step st st' → inv CPU onlyfiles st'.
Proof.
  intros (rest & Hq & Hlen & Hleft & Hperm) [w Hstep].
  destruct st as [q out ws]. unfold Panov.worker_step in Hstep. cbn in *.
  destruct (ws !! w) as [[|cnt|]|] eqn:Hw; [| |done..].
  - destruct q as [|[job|] q]; [done| |]; simplify_eq.
    + destruct rest as [|job' rest].
      { destruct (running ws); cbn in Hq; discriminate. }
      cbn in Hq. simplify_eq.
      destruct (split_insert ws w _ (Panov.Putting (counting job')) Hw)
        as (l1 & l2 & -> & Hins).
      exists rest. cbn. rewrite Hins.
      rewrite !running_app, !running_cons, !unput_app, !length_app in *.
      cbn in *. split_and!; [done|done| |].
      * intros Hlt. by specialize (Hleft Hlt).
      * rewrite <-Hperm. solve_Permutation.
    + destruct rest as [|job' rest]; [|cbn in Hq; discriminate].
      cbn in Hq.
      destruct (split_insert ws w _ Panov.Exited Hw) as (l1 & l2 & -> & Hins).
      exists []. cbn. rewrite Hins.
      rewrite !running_app, !running_cons, !unput_app, !length_app in *.
      cbn in *. rewrite Nat.add_succ_r in Hq. cbn in Hq. simplify_eq.
      split_and!; done.
  - simplify_eq.
    destruct (split_insert ws w _ Panov.Getting Hw) as (l1 & l2 & -> & Hins).
    exists rest. cbn. rewrite Hins.
    rewrite !running_app, !running_cons, !unput_app, !length_app in *.
    cbn in *. split_and!; [done|done|done|].
    rewrite <-Hperm. solve_Permutation.
Qed.

Lemma inv_rtc CPU onlyfiles st :
  rtc step (Panov.start CPU onlyfiles) st → inv CPU onlyfiles st.
Proof.
  revert st. apply rtc_ind_r; [apply inv_start|].
  intros st1 st2 _ Hstep IH. by eapply inv_step.
Qed.

Lemma running_pos_lookup ws :
  (0 < running ws)%nat → ∃ w x, ws !! w = Some x ∧ in_loop x = true.
Proof.
  induction ws as [|x ws IH]; [by unfold running; cbn; lia|].
  rewrite running_cons. destruct (in_loop x) eqn:Hx.
  - intros _. by exists 0%nat, x.
  - intros Hpos. destruct IH as (w & y & Hw & Hy); [lia|]. by exists (S w), y.
Qed.

(** A worker that is still in its loop is never stuck: a put can always be
    made, and a get finds at least the worker's own sentinel. *)
Lemma inv_progress CPU onlyfiles st :
  inv CPU onlyfiles st → ¬ Panov.joined st → red step st.
Proof.
  intros (rest & Hq & Hlen & Hleft & Hperm) Hnj.
  destruct st as [q out ws]. unfold Panov.joined in Hnj. cbn in *.
  rewrite <-running_0_Exited in Hnj.
  assert (0 < running ws)%nat as Hrun by lia.
  destruct (running_pos_lookup ws Hrun) as (w & w0 & Hw & Hw0).
  destruct w0 as [|cnt|]; [| |done].
  - destruct q as [|job q].
    { destruct rest, (running ws); cbn in Hq; (discriminate || lia). }
    destruct job; eexists; exists w; unfold Panov.worker_step; cbn;
      by rewrite Hw.
  - eexists. exists w. unfold Panov.worker_step. cbn. by rewrite Hw.
Qed.

(** Once every worker has left, the queue is empty and the output queue
    holds the tally of every file, in the order the puts happened. *)
Lemma inv_joined CPU onlyfiles st :
  (1 ≤ CPU)%nat → inv CPU onlyfiles st → Panov.joined st →
  Panov.queue st = [] ∧ Panov.output st ≡ₚ counting <$> onlyfiles.
Proof.
  intros HCPU (rest & Hq & Hlen & Hleft & Hperm) Hj.
  destruct st as [q out ws]. unfold Panov.joined in Hj.
  cbn [Panov.queue Panov.workers Panov.output] in *.
  apply running_0_Exited in Hj as Hrun. rewrite Hrun in *.
  rewrite (Hleft ltac:(lia)) in *. split; [done|].
  rewrite <-Hperm.
  assert (unput ws = []) as ->; [|by rewrite !app_nil_r].
  clear -Hj. induction Hj as [|w ws -> _ IH]; [done|]. exact IH.
Qed.
End task4.

(** C10: the queue is loaded with the file names followed by one [None]
    per worker; from there every run of the workers, under any
    interleaving, is finite (at most two steps per file name and two per
    worker), and a run can only stop when every worker has read its [None]
    and left its loop: none stays blocked in [queue.get()]. *)
Theorem workers_terminate lower open (CPU : nat) (onlyfiles : list string) :
  Panov.queue (Panov.start CPU onlyfiles)
    = (Some <$> onlyfiles) ++ replicate CPU None ∧
  sn (Panov.step lower open) (Panov.start CPU onlyfiles) ∧
  (∀ n st, nsteps (Panov.step lower open) n (Panov.start CPU onlyfiles) st →
           (n ≤ 2 * (length onlyfiles + CPU))%nat) ∧
  (∀ st, rtc (Panov.step lower open) (Panov.start CPU onlyfiles) st →
         nf (Panov.step lower open) st → Panov.joined st).
Proof.
  split; [done|]. split; [apply steps_terminate|]. split.
  - intros n st Hn. apply nsteps_work_left in Hn.
    assert (work_left (Panov.start CPU onlyfiles)
              = (2 * (length onlyfiles + CPU))%nat) as Hstart.
    { unfold work_left, Panov.start. cbn.
      rewrite unput_replicate_Getting, length_app, length_fmap, length_replicate.
      cbn. lia. }
    lia.
  - intros st Hst Hnf. apply inv_rtc in Hst.
    destruct (decide (running (Panov.workers st) = 0%nat)) as [Hz|Hnz].
    + by apply running_0_Exited.
    + destruct Hnf. eapply inv_progress; [done|].
      unfold Panov.joined. by rewrite <-running_0_Exited.
Qed.

Lemma workers_terminate_witness :
  Panov.queue (Panov.start 1 Sample.onlyfiles2)
    = [Some "text/a.txt"; Some "text/b.txt"; None] ∧
  sn (Panov.step Sample.lower Sample.open2) (Panov.start 1 Sample.onlyfiles2) ∧
  (∀ n st, nsteps (Panov.step Sample.lower Sample.open2) n
             (Panov.start 1 Sample.onlyfiles2) st → (n ≤ 6)%nat) ∧
  (∀ st, rtc (Panov.step Sample.lower Sample.open2)
             (Panov.start 1 Sample.onlyfiles2) st →
         nf (Panov.step Sample.lower Sample.open2) st → Panov.joined st).
Proof.
  exact (workers_terminate Sample.lower Sample.open2 1 Sample.onlyfiles2).
Defined.

(** ** The parallel drivers against the sequential cell *)


Section drivers.
Variable lower : list N → list N.
Variable open : string → list (list N).

Local Abbreviation counting := (Panov.counting lower open).

Lemma Forall_nonneg_counting (onlyfiles : list string) :
  Forall nonneg (counting <$> onlyfiles).
Proof. apply Forall_fmap, Forall_true. intros. apply nonneg_counting. Qed.


(** Task 5: so does [apply_async] per file. *)
Lemma apply_async_driver_sequential (onlyfiles : list string) (arrival : list nat) :
  arrival ≡ₚ seq 0 (length onlyfiles) →
  Panov.apply_async_driver lower open onlyfiles arrival
    = Some (Panov.sequential lower open onlyfiles).
Proof.
  intros Hp. unfold Panov.apply_async_driver.
  rewrite apply_async_get_any_order; [done|].
  intros j Hj. rewrite Hp. apply elem_of_seq. lia.
Qed.

(** Task 4: the workers do put one tally per file, but the driver takes
    [CPU] of them.  With as many workers as files that is the sequential
    result; with fewer workers some tallies stay in the queue; with more,
    a [get] blocks. *)
Lemma queue_driver_result_spec (CPU : nat) (onlyfiles : list string) st :
  (1 ≤ CPU)%nat →
  rtc (Panov.step lower open) (Panov.start CPU onlyfiles) st →
  Panov.joined st →
  Panov.output st ≡ₚ counting <$> onlyfiles ∧
  Panov.queue_driver_result CPU st =
    if decide (CPU ≤ length onlyfiles)%nat
    then Some (reduce add (take CPU (Panov.output st)))
    else None.
Proof.
  intros HCPU Hst Hj.
  destruct (inv_joined lower open CPU onlyfiles st HCPU (inv_rtc _ _ _ _ _ Hst) Hj)
    as [_ Hout].
  split; [done|]. unfold Panov.queue_driver_result.
  assert (length (Panov.output st) = length onlyfiles) as Hlen
    by (by rewrite Hout, length_fmap).
  repeat case_decide; (done || lia).
Qed.

Lemma queue_driver_one_worker_per_file (onlyfiles : list string) st :
  (1 ≤ length onlyfiles)%nat →
  rtc (Panov.step lower open) (Panov.start (length onlyfiles) onlyfiles) st →
  Panov.joined st →
  Panov.queue_driver_result (length onlyfiles) st
    = Some (Panov.sequential lower open onlyfiles).
Proof.
  intros Hlen Hst Hj.
  destruct (queue_driver_result_spec _ _ _ Hlen Hst Hj) as [Hout ->].
  rewrite decide_True by done. f_equal.
  rewrite take_ge by (by rewrite Hout, length_fmap). symmetry.
  apply reduce_add_perm; [apply Forall_nonneg_counting | done].
Qed.
End drivers.

(** The pool [count_in_dir] never hands back a merged table. *)
Lemma pool_count_in_dir_not_merged lower open listdir dir_name arrival total :
  Unnamed.pool.count_in_dir lower open listdir dir_name arrival
    ≠ Some (ret (Unnamed.Dict total)).
Proof.
  unfold Unnamed.pool.count_in_dir.
  destruct (foldl _ _ _) as [[|l]|]; by cbn.
Qed.

(** C1 (the code at the failing input): a directory with two files that
    each hold the one letter 'а', on a machine with one core.  The
    sequential cell counts 'а' twice.  The single worker of the queue
    driver puts both tallies and leaves, but the driver does one
    [output.get()] per process: it merges only the first tally and counts
    'а' once.  The pool [count_in_dir] returns the list of the two
    per-file tables where the sequential [count_in_dir] of the same
    notebook returns one table. *)
Theorem parallel_drivers_diverge :
  Panov.sequential Sample.lower Sample.open2 Sample.onlyfiles2
    = ret {[cyr_a := 2]} ∧
  (∃ st, rtc (Panov.step Sample.lower Sample.open2)
             (Panov.start 1 Sample.onlyfiles2) st ∧
         Panov.joined st ∧
         Panov.output st = [{[cyr_a := 1]}; {[cyr_a := 1]}]) ∧
  (∀ st, rtc (Panov.step Sample.lower Sample.open2)
             (Panov.start 1 Sample.onlyfiles2) st →
         Panov.joined st →
         Panov.queue_driver_result 1 st = Some (ret {[cyr_a := 1]})) ∧
  Unnamed.count_in_dir Sample.lower Sample.open2 Sample.listdir2 "text" = ∅ ∧
  Unnamed.pool.count_in_dir Sample.lower Sample.open2 Sample.listdir2 "text"
      [0; 1]%nat
    = Some (ret (Unnamed.List [{[cyr_a := 0]}; {[cyr_a := 0]}])).
Proof.
  split; [by vm_compute|].
  split; [|split; [|split; by vm_compute]].
  - eexists. split; [|split].
    + do 5 (eapply rtc_l; [exists 0%nat; by vm_compute|]). apply rtc_refl.
    + by repeat constructor.
    + by vm_compute.
  - intros st Hst Hj.
    destruct (queue_driver_result_spec Sample.lower Sample.open2 1
                Sample.onlyfiles2 st ltac:(done) Hst Hj) as [Hout ->].
    rewrite decide_True by (cbn; lia). f_equal.
    assert (Panov.counting Sample.lower Sample.open2 <$> Sample.onlyfiles2
              = [{[cyr_a := 1]}; {[cyr_a := 1]}]) as Htallies by (by vm_compute).
    rewrite Htallies in Hout. symmetry in Hout.
    apply Permutation_length_2_inv in Hout as [-> | ->]; done.
Qed.

(** * Further properties of the notebooks *)

(** ** Counting the letters of one file *)

(** X1: [count_letters2] maps a character to [n] exactly when the
    character is one of 'а'..'я' and occurs [n > 0] times in the lowercased
    text of the file. *)
Theorem count_letters2_exact lower open file_name c n :
  Panov.count_letters2 lower open file_name !! c = Some n ↔
    (cyr_a ≤ c ≤ cyr_ya)%N ∧ n = occurrences c (text lower open file_name)
    ∧ 0 < n.
Proof.
  rewrite lookup_count_letters2. case_bool_decide as Hc.
  - rewrite kept_Some. tauto.
  - split; [done | tauto].
Qed.






Lemma russian_letter_spec c :
  Panov.russian_letter c = true ↔
    (cyr_a ≤ c ≤ cyr_ya)%N ∨ (1040 ≤ c ≤ 1071)%N ∨ c = cyr_yo ∨ c = 1025%N.
Proof.
  unfold Panov.russian_letter.
  rewrite !orb_true_iff, !bool_decide_eq_true. tauto.
Qed.

(** X3: the regex [count_letters] maps a character to [n] exactly when it
    is in the class [[а-яА-ЯёЁ]] ('ё' included) and occurs [n > 0] times in
    the lowercased content of the file. *)
Theorem count_letters_exact lower open file_name c n :
  Panov.count_letters lower open file_name !! c = Some n ↔
    ((cyr_a ≤ c ≤ cyr_ya)%N ∨ (1040 ≤ c ≤ 1071)%N ∨ c = cyr_yo ∨ c = 1025%N)
    ∧ n = occurrences c (lower (concat (open file_name))) ∧ 0 < n.
Proof.
  unfold Panov.count_letters, findall.
  rewrite lookup_Counter, occurrences_filter, <-russian_letter_spec.
  case_decide as Hc.
  - rewrite kept_Some. apply Is_true_true in Hc. tauto.
  - split; [done|]. intros [Hc' _]. destruct Hc. by apply Is_true_true.
Qed.



(** ** The drivers of tasks 2 to 6 *)

(** X5: the sequential cell raises [TypeError] on an empty list of files
    ([reduce] has nothing to start from); on any other list it returns the
    tally of the letters 'а'..'я' of the lowercased texts of all the files
    taken together. *)
Theorem sequential_total lower open (onlyfiles : list string) :
  Panov.sequential lower open onlyfiles =
    match onlyfiles with
    | [] => raise TypeError
    | _ => ret (Counter (filter (.∈ Panov.rus_symb)
                           (concat (text lower open <$> onlyfiles))))
    end.
Proof.
  destruct onlyfiles as [|f fs]; [done|].
  unfold Panov.sequential.
  rewrite (list_fmap_ext (Panov.count_letters2 lower open)
             (Counter ∘ (λ p, filter (.∈ Panov.rus_symb) (text lower open p)))
             (f :: fs)).
  - rewrite list_fmap_compose, reduce_add_Counter by done.
    by rewrite filter_concat, <-list_fmap_compose.
  - intros _ p _. unfold Panov.count_letters2, text, compose.
    by rewrite filter_concat_fmap.
Qed.



(** X7: so does the [apply_async] cell of task 5, in whatever order the
    pool finishes the jobs. *)
Theorem apply_async_driver_agrees lower open (onlyfiles : list string)
    (arrival : list nat) :
  arrival ≡ₚ seq 0 (length onlyfiles) →
  Panov.apply_async_driver lower open onlyfiles arrival
    = Some (Panov.sequential lower open onlyfiles).
Proof. apply apply_async_driver_sequential. Qed.

Lemma apply_async_driver_agrees_witness :
  Panov.apply_async_driver Sample.lower Sample.open2 Sample.onlyfiles2
      [1; 0]%nat
    = Some (Panov.sequential Sample.lower Sample.open2 Sample.onlyfiles2).
Proof.
  apply (apply_async_driver_agrees Sample.lower Sample.open2
           Sample.onlyfiles2 [1; 0]%nat).
  apply (bool_decide_unpack _). by vm_compute.
Defined.

(** X8: on a machine with at least one core, once every worker of task 4
    has been joined the task queue is empty and the output queue holds
    the tally of every file exactly once, in some order. *)
Theorem workers_put_every_tally lower open (CPU : nat)
    (onlyfiles : list string) (st : Panov.state) :
  (1 ≤ CPU)%nat →
  rtc (Panov.step lower open) (Panov.start CPU onlyfiles) st →
  Panov.joined st →
  Panov.queue st = [] ∧
  Panov.output st ≡ₚ Panov.counting lower open <$> onlyfiles.
Proof.
  intros HCPU Hst Hj. eapply inv_joined; [done| |done]. by apply inv_rtc.
Qed.

(** X9: after the joins the task 4 driver takes [CPU] tallies from the
    output queue.  With more workers than files its last [output.get()]
    blocks for ever; with as many workers as files (and at least one) it
    returns what the sequential cell returns. *)
Theorem queue_driver_outcome lower open (CPU : nat)
    (onlyfiles : list string) (st : Panov.state) :
  (1 ≤ CPU)%nat →
  rtc (Panov.step lower open) (Panov.start CPU onlyfiles) st →
  Panov.joined st →
  ((length onlyfiles < CPU)%nat → Panov.queue_driver_result CPU st = None) ∧
  (CPU = length onlyfiles →
     Panov.queue_driver_result CPU st
       = Some (Panov.sequential lower open onlyfiles)).
Proof.
  intros HCPU Hst Hj. split.
  - intros Hlt.
    destruct (queue_driver_result_spec lower open CPU onlyfiles st HCPU Hst Hj)
      as [_ ->].
    by rewrite decide_False by lia.
  - intros ->. by apply queue_driver_one_worker_per_file.
Qed.

Lemma joined1_reached :
  rtc (Panov.step Sample.lower Sample.open2) (Panov.start 1 Sample.onlyfiles2)
      Sample2.joined1.
Proof.
  do 5 (eapply rtc_l; [exists 0%nat; by vm_compute|]). apply rtc_refl.
Qed.

Lemma joined2_reached :
  rtc (Panov.step Sample.lower Sample.open2) (Panov.start 2 Sample.onlyfiles2)
      Sample2.joined2.
Proof.
  eapply rtc_l; [exists 0%nat; by vm_compute|].
  eapply rtc_l; [exists 1%nat; by vm_compute|].
  eapply rtc_l; [exists 0%nat; by vm_compute|].
  eapply rtc_l; [exists 1%nat; by vm_compute|].
  eapply rtc_l; [exists 0%nat; by vm_compute|].
  eapply rtc_l; [exists 1%nat; by vm_compute|].
  apply rtc_refl.
Qed.

Lemma workers_put_every_tally_witness :
  Panov.queue Sample2.joined1 = [] ∧
  Panov.output Sample2.joined1
    ≡ₚ Panov.counting Sample.lower Sample.open2 <$> Sample.onlyfiles2.
Proof.
  apply (workers_put_every_tally Sample.lower Sample.open2 1
           Sample.onlyfiles2 Sample2.joined1).
  - lia.
  - apply joined1_reached.
  - by repeat constructor.
Defined.

Lemma queue_driver_outcome_witness :
  ((length Sample.onlyfiles2 < 2)%nat →
     Panov.queue_driver_result 2 Sample2.joined2 = None) ∧
  (2%nat = length Sample.onlyfiles2 →
     Panov.queue_driver_result 2 Sample2.joined2
       = Some (Panov.sequential Sample.lower Sample.open2 Sample.onlyfiles2)).
Proof.
  apply (queue_driver_outcome Sample.lower Sample.open2 2
           Sample.onlyfiles2 Sample2.joined2).
  - lia.
  - apply joined2_reached.
  - by repeat constructor.
Defined.

(** X10: for at least one worker, the summed tallies of the pieces of
    task 6 are the tally of the first [b * cpu] characters of the text;
    when the number of workers divides the length of the text that is the
    tally of the whole text. *)
Theorem chunked_covers_prefix (file : list N) (cpu : nat) :
  (1 ≤ cpu)%nat →
  Panov.task6.chunked file cpu =
    ret (Panov.task6.counting (take (length file / cpu * cpu) file)) ∧
  ((length file `mod` cpu = 0)%nat →
     Panov.task6.chunked file cpu = ret (Panov.task6.counting file)).
Proof.
  intros Hcpu. split; [by apply chunked_prefix|].
  intros Hmod. by apply chunked_divisible.
Qed.

Lemma chunked_covers_prefix_witness :
  Panov.task6.chunked Sample2.five 2 =
    ret (Panov.task6.counting
           (take (length Sample2.five / 2 * 2) Sample2.five)) ∧
  ((length Sample2.five `mod` 2 = 0)%nat →
     Panov.task6.chunked Sample2.five 2
       = ret (Panov.task6.counting Sample2.five)).
Proof.
  apply (chunked_covers_prefix Sample2.five 2). lia.
Defined.

(** ** The notebook with count_chars_in_book, further *)

(** X11: [count_chars_in_book] maps a character to [n] exactly when the
    character is matched by [[а-я]], occurs in the lowercased text, and [n]
    is one less than the number of its occurrences there. *)
Theorem count_chars_in_book_exact lower open path c n :
  Unnamed.count_chars_in_book lower open path !! c = Some n ↔
    (cyr_a ≤ c ≤ cyr_ya)%N ∧ 0 < occurrences c (text lower open path)
    ∧ n = occurrences c (text lower open path) - 1.
Proof.
  rewrite lookup_count_chars_in_book.
  repeat case_bool_decide; cbn; split; try done; try tauto.
  - intros [= <-]. done.
  - intros (_ & _ & ->). done.
Qed.

Lemma elem_of_alphabet c :
  c ∈ Unnamed.counters.alphabet ↔ (cyr_a ≤ c ≤ cyr_ya)%N ∨ c = cyr_yo.
Proof.
  unfold Unnamed.counters.alphabet.
  rewrite elem_of_union, elem_of_list_to_set, elem_of_range, elem_of_singleton.
  unfold cyr_a, cyr_ya. lia.
Qed.

(** X12: [count_chars_in_book] of counters.py, which tests membership in
    the alphabet string, does the same for 'а'..'я' and also for 'ё':
    a letter that occurs is mapped to one less than its number of
    occurrences in the lowercased text of [text/filename]. *)
Theorem counters_count_chars_in_book_exact lower open filename c n :
  Unnamed.counters.count_chars_in_book lower open filename !! c = Some n ↔
    ((cyr_a ≤ c ≤ cyr_ya)%N ∨ c = cyr_yo)
    ∧ 0 < occurrences c (text lower open ("text/" +:+ filename))
    ∧ n = occurrences c (text lower open ("text/" +:+ filename)) - 1.
Proof.
  unfold Unnamed.counters.count_chars_in_book, text.
  rewrite (foldl_concat_fmap
    (λ chars char, if bool_decide (char ∈ Unnamed.counters.alphabet)
                   then Unnamed.count chars char else chars) lower).
  rewrite (lookup_count_loop (λ char, bool_decide (char ∈ Unnamed.counters.alphabet))).
  rewrite <-elem_of_alphabet.
  repeat case_bool_decide; cbn; split; try done; try tauto.
  - intros [= <-]. done.
  - intros (_ & _ & ->). done.
Qed.

(** X13: the directory total of the sequential [count_in_dir] does not
    depend on the order in which [os.listdir] lists the files. *)
Theorem count_in_dir_any_listing lower open listdir listdir' dir_name :
  listdir dir_name ≡ₚ listdir' dir_name →
  Unnamed.count_in_dir lower open listdir dir_name =
  Unnamed.count_in_dir lower open listdir' dir_name.
Proof. apply count_in_dir_listing_order. Qed.

Lemma count_in_dir_any_listing_witness :
  Unnamed.count_in_dir Sample.lower Sample.open Sample2.listdir_ab "text" =
  Unnamed.count_in_dir Sample.lower Sample.open Sample2.listdir_ba "text".
Proof.
  apply (count_in_dir_any_listing Sample.lower Sample.open
           Sample2.listdir_ab Sample2.listdir_ba "text").
  apply (bool_decide_unpack _). by vm_compute.
Defined.

Lemma entry_sum_count_chars_in_book lower open c (paths : list string) :
  entry_sum c (Unnamed.count_chars_in_book lower open <$> paths) =
    if bool_decide (cyr_a ≤ c ≤ cyr_ya)%N
    then one_short_total lower open c paths else 0.
Proof.
  induction paths as [|path paths IH].
  { cbn. by case_bool_decide. }
  rewrite fmap_cons, entry_sum_cons, IH, lookup_count_chars_in_book.
  pose proof (occurrences_nonneg c (text lower open path)).
  cbn [one_short_total foldr]. fold (one_short_total lower open c paths).
  repeat case_bool_decide; cbn; lia.
Qed.

(** X14: in the directory total of the sequential [count_in_dir] a letter
    of 'а'..'я' is counted, in every file that has it, one time less than
    it occurs there; a letter for which that leaves nothing, and every
    other character, is not a key. *)
Theorem count_in_dir_total lower open listdir dir_name c :
  Unnamed.count_in_dir lower open listdir dir_name !! c =
    if bool_decide (cyr_a ≤ c ≤ cyr_ya)%N
    then kept (one_short_total lower open c
                 ((λ file, dir_name +:+ "/" +:+ file) <$> listdir dir_name))
    else None.
Proof.
  unfold Unnamed.count_in_dir.
  rewrite <-(foldl_fmap add ∅ _
    (λ file, Unnamed.count_chars_in_book lower open (dir_name +:+ "/" +:+ file))).
  rewrite lookup_foldl_add_empty.
  - rewrite (list_fmap_compose (λ file, dir_name +:+ "/" +:+ file)
               (Unnamed.count_chars_in_book lower open)).
    rewrite entry_sum_count_chars_in_book. by case_bool_decide.
  - apply Forall_fmap, Forall_true. intros; apply nonneg_count_chars_in_book.
Qed.

Lemma foldl_rebind {A} (v : option Unnamed.pool.local) (files : list A) :
  foldl (λ acc _, acc ≫= λ _, v) (Some Unnamed.pool.Unbound) files =
    match files with
    | [] => Some Unnamed.pool.Unbound
    | _ => v
    end.
Proof.
  destruct files as [|f files]; [done|]. cbn.
  induction files as [|g files IH]; [done|].
  cbn. destruct v; [exact IH|]. cbn.
  clear. by induction files.
Qed.

(** X15: as long as every batch of the pool comes back, the pool
    [count_in_dir] raises [UnboundLocalError] on an empty directory (the
    loop never binds [chars_in_file]) and on any other directory returns
    the list of the per-file tables of counters.py in the order of
    [os.listdir]. *)
Theorem pool_count_in_dir_outcome lower open listdir dir_name arrival :
  (∀ i, (i < length (Pool.get_tasks
                       (Pool.chunksize (length (listdir dir_name))
                                       (length (listdir dir_name)))
                       (listdir dir_name)))%nat → i ∈ arrival) →
  Unnamed.pool.count_in_dir lower open listdir dir_name arrival =
    Some (match listdir dir_name with
          | [] => raise UnboundLocalError
          | files => ret (Unnamed.List
                       (Unnamed.counters.count_chars_in_book lower open
                          <$> files))
          end).
Proof.
  intros Hall. unfold Unnamed.pool.count_in_dir.
  rewrite pool_map_any_order by done. cbn [fmap option_fmap option_map].
  rewrite foldl_rebind. by destruct (listdir dir_name).
Qed.

Lemma pool_count_in_dir_outcome_witness :
  Unnamed.pool.count_in_dir Sample.lower Sample.open2 Sample.listdir2 "text"
      [1; 0]%nat =
    Some (match Sample.listdir2 "text" with
          | [] => raise UnboundLocalError
          | files => ret (Unnamed.List
                       (Unnamed.counters.count_chars_in_book
                          Sample.lower Sample.open2 <$> files))
          end).
Proof.
  apply (pool_count_in_dir_outcome Sample.lower Sample.open2 Sample.listdir2
           "text" [1; 0]%nat).
  intros i Hi. vm_compute in Hi. apply list_elem_of_In. cbn. lia.
Defined.

(** ** lec_multiprocessing_intro_v3.ipynb, further *)

(** X16: the cp1251 [count_letters] never returns a table that counts
    anything: on every file it either raises the undefined-name error or
    returns the empty table. *)
Theorem count_letters_counts_nothing lower open file_name :
  Golyshkov.count_letters lower open file_name = raise (NameError [cyr_es]) ∨
  Golyshkov.count_letters lower open file_name = ret ∅.
Proof.
  unfold Golyshkov.count_letters.
  rewrite count_letters_iterator, consume_raise.
  destruct (length _); [by right | by left].
Qed.






(** ** 02_bag_v2.ipynb, further *)

Lemma consume_ret {A B} (g : A → B) (l : list A) :
  consume ((λ x, ret (g x)) <$> l) = ret (g <$> l).
Proof. induction l as [|x l IH]; [done|]. cbn. by rewrite IH. Qed.

Lemma bag_map_ret {A B} (g : A → B) (bag : list (list A)) :
  Bag.map (λ x, ret (g x)) bag = ret ((λ part : list A, g <$> part) <$> bag).
Proof.
  unfold Bag.map.
  rewrite (list_fmap_ext _ (λ part, ret (g <$> part)) bag)
    by (intros; apply consume_ret).
  apply consume_ret.
Qed.

Lemma filter_part_ret {A} (p : A → bool) (part : list A) :
  Bag.filter_part (λ x, ret (p x)) part = ret (filter (λ x, p x = true) part).
Proof.
  unfold Bag.filter_part. cbn.
  rewrite (consume_ret (λ x, (x, p x))). cbn. f_equal.
  induction part as [|x part IH]; [done|].
  rewrite fmap_cons, !filter_cons. cbn [snd].
  case_decide; [rewrite fmap_cons; cbn [fst]|]; by rewrite IH.
Qed.

Lemma bag_filter_ret {A} (p : A → bool) (bag : list (list A)) :
  Bag.filter (λ x, ret (p x)) bag
    = ret ((λ part : list A, filter (λ x, p x = true) part) <$> bag).
Proof.
  unfold Bag.filter.
  rewrite (list_fmap_ext _ (λ part, ret (filter (λ x, p x = true) part)) bag)
    by (intros; apply filter_part_ret).
  apply consume_ret.
Qed.

Lemma partition_size_0 (len : nat) npartitions :
  Bag.partition_size len npartitions = 0%nat → len = 0%nat.
Proof.
  unfold Bag.partition_size. destruct npartitions as [n|].
  - intros Hz. pose proof (Pos2Nat.is_pos n).
    destruct (decide (len = 0%nat)) as [|Hne]; [done|].
    assert (1 ≤ (len + Pos.to_nat n - 1) / Pos.to_nat n)%nat; [|lia].
    apply Nat.div_le_lower_bound; lia.
  - case_decide; [done|]. intros Hz.
    assert (1 ≤ len / 100)%nat; [|lia].
    apply Nat.div_le_lower_bound; lia.
Qed.

(** The partitions of [from_sequence], put end to end, are the sequence. *)
Lemma concat_from_sequence {A} (seq : list A) npartitions :
  concat (Bag.from_sequence seq npartitions) = seq.
Proof.
  unfold Bag.from_sequence.
  destruct (decide (Bag.partition_size (length seq) npartitions = 0)%nat)
    as [Hz|Hnz].
  - rewrite Hz. apply partition_size_0 in Hz.
    by destruct seq.
  - pose proof (concat_partition_all
                  (Bag.partition_size (length seq) npartitions) seq
                  ltac:(lia)) as Hcat.
    destruct (partition_all _ seq) as [|part parts]; [|done].
    by rewrite <-Hcat.
Qed.

Lemma concat_fmap_fmap {A B} (g : A → B) (bag : list (list A)) :
  concat ((λ part : list A, g <$> part) <$> bag) = g <$> concat bag.
Proof.
  induction bag as [|part bag IH]; [done|]. cbn. by rewrite fmap_app, IH.
Qed.

Lemma concat_fmap_filter {A} (P : A → Prop) `{∀ x, Decision (P x)}
    (bag : list (list A)) :
  concat ((λ part : list A, filter P part) <$> bag) = filter P (concat bag).
Proof.
  induction bag as [|part bag IH]; [done|]. cbn. by rewrite filter_app, IH.
Qed.

(** X18: whatever the number of partitions, the filter-and-map cell
    returns the squares of the even items of the sequence, in the order
    of the sequence. *)
Theorem even_squares_spec (seq : list Z) npartitions :
  Leventsov.even_squares seq npartitions =
    ret ((λ x, x * x) <$> filter (λ n, n `mod` 2 = 0) seq).
Proof.
  unfold Leventsov.even_squares.
  rewrite bag_filter_ret. cbn. rewrite bag_map_ret. cbn.
  unfold Bag.compute, ret. f_equal.
  rewrite concat_fmap_fmap, concat_fmap_filter, concat_from_sequence.
  rewrite (list_fmap_ext (λ x, x ^ 2) (λ x, x * x)) by (intros; lia).
  f_equal. apply list_filter_iff. intros n. unfold Leventsov.is_even.
  by rewrite bool_decide_eq_true.
Qed.


Section foldby_max.
Context `{Countable K} (key : Z → K) (k : K).

Lemma omax_assoc (a b c : option Z) : omax (omax a b) c = omax a (omax b c).
Proof. destruct a, b, c; cbn; try done. f_equal. lia. Qed.

Lemma omax_None_l (o : option Z) : omax None o = o.
Proof. by destruct o. Qed.

Lemma omax_None_r (o : option Z) : omax o None = o.
Proof. by destruct o. Qed.

Lemma holds_greatest_omax (l1 l2 : list Z) (o1 o2 : option Z) :
  holds_greatest key k l1 o1 → holds_greatest key k l2 o2 →
  holds_greatest key k (l1 ++ l2) (omax o1 o2).
Proof.
  destruct o1 as [a|], o2 as [b|]; cbn; unfold greatest_of_key.
  - intros (Ha & Hka & Hma) (Hb & Hkb & Hmb). split_and!.
    + rewrite elem_of_app. destruct (Z.max_spec a b) as [[_ ->]|[_ ->]]; auto.
    + destruct (Z.max_spec a b) as [[_ ->]|[_ ->]]; auto.
    + intros x [Hx|Hx]%elem_of_app Hk;
        [specialize (Hma x Hx Hk)|specialize (Hmb x Hx Hk)]; lia.
  - intros (Ha & Hka & Hma) Hno. split_and!; [set_solver|done|].
    intros x [Hx|Hx]%elem_of_app Hk; [by apply Hma|by destruct (Hno x Hx)].
  - intros Hno (Hb & Hkb & Hmb). split_and!; [set_solver|done|].
    intros x [Hx|Hx]%elem_of_app Hk; [by destruct (Hno x Hx)|by apply Hmb].
  - intros Hno1 Hno2 x [Hx|Hx]%elem_of_app; auto.
Qed.

Lemma holds_greatest_reduceby1 (part : list Z) :
  holds_greatest key k part (reduceby1 key Z.max part !! k).
Proof.
  induction part as [|x part IH] using rev_ind.
  - unfold reduceby1. cbn [foldl]. rewrite lookup_empty.
    intros x Hx. by apply elem_of_nil in Hx.
  - unfold reduceby1 in *. rewrite foldl_app. cbn [foldl].
    set (d := foldl _ ∅ part) in *.
    assert (holds_greatest key k [x]
              (if decide (key x = k) then Some x else None)) as Hx.
    { case_decide; cbn.
      - split_and!; [set_solver|done|].
        intros y ->%list_elem_of_singleton _. lia.
      - by intros y ->%list_elem_of_singleton. }
    pose proof (holds_greatest_omax _ _ _ _ IH Hx) as Hboth.
    destruct (decide (key x = k)) as [Hk|Hk].
    + rewrite Hk. destruct (d !! k) as [v|] eqn:Hd;
        by rewrite lookup_insert_eq.
    + rewrite omax_None_r in Hboth.
      destruct (d !! key x); by rewrite lookup_insert_ne.
Qed.

Lemma lookup_max_cons (d : gmap K Z) (ds : list (gmap K Z)) :
  lookup_max k (d :: ds) = omax (d !! k) (lookup_max k ds).
Proof. done. Qed.

Lemma lookup_max_app (ds1 ds2 : list (gmap K Z)) :
  lookup_max k (ds1 ++ ds2) = omax (lookup_max k ds1) (lookup_max k ds2).
Proof.
  induction ds1 as [|d ds1 IH].
  - by rewrite omax_None_l.
  - rewrite <-app_comm_cons, !lookup_max_cons, IH. by rewrite omax_assoc.
Qed.

Lemma lookup_merge_with_reduce (ds : list (gmap K Z)) :
  merge_with_reduce Z.max ds !! k = lookup_max k ds.
Proof.
  unfold merge_with_reduce.
  assert (∀ acc : gmap K Z,
            foldl (union_with (λ x y, Some (Z.max x y))) acc ds !! k
            = omax (acc !! k) (lookup_max k ds)) as Hgen.
  { induction ds as [|d ds IH]; intros acc.
    - by rewrite omax_None_r.
    - cbn [foldl]. rewrite IH, lookup_union_with, lookup_max_cons.
      by rewrite <-omax_assoc. }
  by rewrite Hgen, lookup_empty, omax_None_l.
Qed.

Lemma lookup_max_merged (chunks : list (list (gmap K Z))) :
  lookup_max k (merge_with_reduce Z.max <$> chunks)
    = lookup_max k (concat chunks).
Proof.
  induction chunks as [|chunk chunks IH]; [done|].
  rewrite fmap_cons, lookup_max_cons. cbn [concat].
  by rewrite lookup_max_app, lookup_merge_with_reduce, IH.
Qed.

Lemma lookup_max_foldby1_levels (fuel : nat) (ds : list (gmap K Z)) :
  lookup_max k (foldby1_levels fuel Z.max ds) = lookup_max k ds.
Proof.
  revert ds. induction fuel as [|fuel IH]; intros ds; [done|].
  cbn [foldby1_levels]. case_decide; [|done].
  rewrite IH, lookup_max_merged, concat_partition_all; [done|].
  unfold split_every. lia.
Qed.

Lemma holds_greatest_bag (bag : list (list Z)) :
  holds_greatest key k (concat bag)
    (lookup_max k ((λ part, reduceby1 key Z.max part) <$> bag)).
Proof.
  induction bag as [|part bag IH].
  - intros x Hx. by apply elem_of_nil in Hx.
  - rewrite fmap_cons, lookup_max_cons. cbn [concat].
    apply holds_greatest_omax; [apply holds_greatest_reduceby1|done].
Qed.

Lemma foldby1_max_spec (bag : list (list Z)) (m : Z) :
  (k, m) ∈ foldby1 key Z.max Z.max bag
  ↔ greatest_of_key key k (concat bag) m.
Proof.
  unfold foldby1, dictitems.
  rewrite elem_of_map_to_list, lookup_merge_with_reduce,
    lookup_max_foldby1_levels.
  pose proof (holds_greatest_bag bag) as Hg.
  destruct (lookup_max k _) as [m'|]; cbn in Hg.
  - split.
    + by intros [= <-].
    + intros (Hm & Hk & Hle). destruct Hg as (Hm' & Hk' & Hle').
      f_equal. specialize (Hle m' Hm' Hk'). specialize (Hle' m Hm Hk). lia.
  - split; [done|]. intros (Hm & Hk & _). by destruct (Hg m Hm).
Qed.

End foldby_max.

(** X20: the [foldby] cell with [max] pairs a remainder [k] with [m]
    exactly when [m] is the greatest item of the bag whose remainder
    modulo 2 is [k], however the items are spread over the partitions. *)
Theorem foldby_max_cell_spec (b : list (list Z)) (k m : Z) :
  (k, m) ∈ Leventsov.foldby_max_cell b
  ↔ m ∈ concat b ∧ m `mod` 2 = k
    ∧ ∀ x, x ∈ concat b → x `mod` 2 = k → x ≤ m.
Proof. exact (foldby1_max_spec (λ x, x `mod` 2) k b m). Qed.

Lemma consume_KeyError {A B} (f : A → result B) (l : list A) :
  (∀ x, f x = raise KeyError ∨ ∃ v, f x = ret v) →
  consume (f <$> l) = raise KeyError ↔ Exists (λ x, f x = raise KeyError) l.
Proof.
  intros Hf. induction l as [|x l IH].
  - split; [done|]. by intros ?%Exists_nil.
  - rewrite fmap_cons, Exists_cons. cbn [consume].
    destruct (Hf x) as [Hx|[v Hx]]; rewrite Hx; cbn.
    + split; [by left|done].
    + rewrite <-IH. destruct (consume (f <$> l)) as [e|vs]; cbn.
      * split; [intros [= ->]; by right|]. by intros [|[= ->]].
      * split; [done|]. by intros [|].
Qed.

Lemma consume_app {A} (l1 l2 : list (result A)) :
  consume (l1 ++ l2)
    = bind (consume l1) (λ a, bind (consume l2) (λ b, ret (a ++ b))).
Proof.
  induction l1 as [|r l1 IH].
  - cbn. by destruct (consume l2).
  - cbn. destruct r as [e|v]; [done|]. cbn. rewrite IH.
    destruct (consume l1) as [e|a]; [done|]. cbn.
    by destruct (consume l2).
Qed.

(** Mapping [f] over a bag, flattening and computing is mapping [f] over
    the items in bag order and chaining what it returns. *)
Lemma bag_map_flatten {A B} (f : A → result (list B)) (bag : list (list A)) :
  bind (Bag.map f bag) (λ b, ret (Bag.compute (Bag.flatten b)))
    = bind (consume (f <$> concat bag)) (λ rowss, ret (concat rowss)).
Proof.
  unfold Bag.map, Bag.compute, Bag.flatten.
  induction bag as [|part bag IH]; [done|].
  rewrite fmap_cons. cbn [concat consume].
  rewrite fmap_app, consume_app.
  destruct (consume (f <$> part)) as [e|a]; [done|]. cbn [bind].
  destruct (consume ((λ part0, consume (f <$> part0)) <$> bag)) as [e|vss];
    destruct (consume (f <$> concat bag)) as [e'|b]; cbn in IH |- *;
    try done.
  injection IH as IH. unfold ret. f_equal. by rewrite concat_app, IH.
Qed.

(** X21: for a record that has an id, a name and a list of transactions
    each with an amount and a transaction id, [denormalize] returns one
    row per transaction, in the order of the transactions, each with the
    id and the name of the record and the amount and the id of its
    transaction. *)
Theorem denormalize_rows (record : Leventsov.account) (i : Z) (n : string)
    (ts : list Leventsov.transaction) :
  Leventsov.account_id record = Some i →
  Leventsov.account_name record = Some n →
  Leventsov.account_transactions record = Some ts →
  Forall (λ t, is_Some (Leventsov.amount t)
               ∧ is_Some (Leventsov.transaction_id t)) ts →
  ∃ rows,
    Leventsov.denormalize record = ret rows
    ∧ Forall2 (λ t r,
         Leventsov.row_id r = i ∧ Leventsov.row_name r = n
         ∧ Leventsov.amount t = Some (Leventsov.row_amount r)
         ∧ Leventsov.transaction_id t
           = Some (Leventsov.row_transaction_id r)) ts rows.
Proof.
  intros Hi Hn Hts Hall. unfold Leventsov.denormalize.
  rewrite Hts, Hi, Hn. cbn [Leventsov.getitem bind ret]. clear Hts Hi Hn.
  match goal with |- context [consume (?f <$> _)] => set (g := f) end.
  induction Hall as [|t ts [[a Ha] [ti Hti]] _ (rows & Hrows & Hall)].
  - by exists [].
  - exists (Leventsov.Row i n a ti :: rows). split.
    + rewrite fmap_cons. cbn [consume]. rewrite Hrows.
      unfold g. by rewrite Ha, Hti.
    + by constructor.
Qed.

Lemma denormalize_rows_witness :
  ∃ rows,
    Leventsov.denormalize Sample2.alice = ret rows
    ∧ Forall2 (λ t r,
         Leventsov.row_id r = 7 ∧ Leventsov.row_name r = "Alice"
         ∧ Leventsov.amount t = Some (Leventsov.row_amount r)
         ∧ Leventsov.transaction_id t
           = Some (Leventsov.row_transaction_id r))
        [Leventsov.Transaction (Some 10) (Some 200);
         Leventsov.Transaction (Some 11) (Some (-5))] rows.
Proof.
  apply (denormalize_rows Sample2.alice 7 "Alice"); try reflexivity.
  repeat constructor; by eexists.
Defined.

(** X22: [denormalize] raises [KeyError] exactly when the record has no
    list of transactions, or has a non-empty one and lacks its id or its
    name or one of the transactions lacks its amount or its id; a record
    with an empty list of transactions gives no rows even when its id
    and name are missing. *)
Theorem denormalize_KeyError (record : Leventsov.account) :
  Leventsov.denormalize record = raise KeyError
  ↔ Leventsov.account_transactions record = None
    ∨ ∃ ts, Leventsov.account_transactions record = Some ts
        ∧ ts ≠ []
        ∧ (Leventsov.account_id record = None
           ∨ Leventsov.account_name record = None
           ∨ Exists (λ t, Leventsov.amount t = None
                          ∨ Leventsov.transaction_id t = None) ts).
Proof.
  unfold Leventsov.denormalize.
  destruct (Leventsov.account_transactions record) as [ts|]; cbn [Leventsov.getitem bind ret];
    [|split; [by left|done]].
  rewrite consume_KeyError.
  - split.
    + intros Hex. right. exists ts. split_and!; [done|by intros ->; apply Exists_nil in Hex|].
      destruct (Leventsov.account_id record); [|by left].
      destruct (Leventsov.account_name record); [|by right; left].
      right; right. eapply Exists_impl; [done|]. intros t. cbn.
      destruct (Leventsov.amount t); [|by left].
      destruct (Leventsov.transaction_id t); [done|by right].
    + intros [|(ts' & [= <-] & Hne & Hmiss)]; [done|].
      destruct Hmiss as [Hi|[Hn|Hex]].
      * rewrite Hi. destruct ts; [done|]. by left.
      * rewrite Hn. destruct ts; [done|]. left.
        by destruct (Leventsov.account_id record).
      * eapply Exists_impl; [done|]. intros t Ht. cbn in Ht.
        destruct (Leventsov.account_id record); [|done].
        destruct (Leventsov.account_name record); [|done]. cbn.
        destruct Ht as [->| ->]; [done|].
        by destruct (Leventsov.amount t).
  - intros t.
    destruct (Leventsov.account_id record); [|by left].
    destruct (Leventsov.account_name record); [|by left].
    destruct (Leventsov.amount t); [|by left].
    destruct (Leventsov.transaction_id t); [|by left].
    right. by eexists.
Qed.

(** X23: the [transactions] bag does not depend on how the records are
    spread over the partitions: computing it gives what denormalizing
    the records one after another in bag order and chaining their rows
    gives, an exception included. *)
Theorem transactions_in_bag_order (js : list (list Leventsov.account)) :
  Leventsov.transactions js
  = bind (consume (Leventsov.denormalize <$> concat js))
      (λ rowss, ret (concat rowss)).
Proof. apply bag_map_flatten. Qed.
